(** * GerapyAutoExtractor: the list extractor and its element utilities

    A shallow embedding of [gerapy_auto_extractor/utils/element.py] and
    [gerapy_auto_extractor/extractors/list.py], followed by the properties
    of the list-extraction core.

    Conventions of the embedding.
    - A Python [str] is a [string]; one [ascii] stands for one character, so
      the model covers the characters with code point below 256.
    - A Python [float] is a rational ([Q]) and arithmetic is exact; the one
      float that is not a number, the mean of an empty list, is [None].
    - A raised exception is the [Raise] alternative of [result].
    - A [dict] is an association list in insertion order with unique keys.
    - An lxml node is a tree position: the node together with its context
      (the siblings on both sides and the chain of ancestors). *)

From Stdlib Require Import List String Ascii Bool Arith ZArith QArith Lia.
From Stdlib Require Import DecimalString Sorted.
From Equations Require Import Equations.
Import ListNotations.

Local Close Scope Q_scope.
Local Open Scope nat_scope.
Local Open Scope string_scope.
Local Open Scope list_scope.

Set Implicit Arguments.
Set Warnings "-register-all".

(** ** Python runtime *)

Inductive PyError : Type :=
| KeyError
| ValueError
| TypeError
| AttributeError.

Inductive result (A : Type) : Type :=
| Ok (a : A)
| Raise (e : PyError).

Arguments Ok {A} a.
Arguments Raise {A} e.

Definition bind {A B : Type} (r : result A) (k : A -> result B) : result B :=
  match r with
  | Ok a => k a
  | Raise e => Raise e
  end.

Notation "x <- r ;; k" := (bind r (fun x => k))
  (at level 61, r at next level, right associativity).

(** A value that is a string on one path and an integer on another. *)
Inductive PyValue : Type :=
| PyStr (s : string)
| PyInt (z : Z).

(** [len(v)]: defined on strings, a [TypeError] on integers. *)
Definition py_len (v : PyValue) : result nat :=
  match v with
  | PyStr s => Ok (String.length s)
  | PyInt _ => Raise TypeError
  end.

(** *** Strings *)

(** The characters matched by [\s] in a [str] pattern, below code point 256. *)
Definition is_whitespace (c : ascii) : bool :=
  let n := nat_of_ascii c in
  (Nat.leb 9 n && Nat.leb n 13) || (Nat.leb 28 n && Nat.leb n 32)
  || Nat.eqb n 133 || Nat.eqb n 160.

(** [re.sub(r'\s*', '', s)]: every whitespace character is dropped. *)
Fixpoint re_sub_whitespace (s : string) : string :=
  match s with
  | EmptyString => EmptyString
  | String c s' =>
      if is_whitespace c then re_sub_whitespace s'
      else String c (re_sub_whitespace s')
  end.

(** [''.join(parts)] *)
Fixpoint str_join (parts : list string) : string :=
  match parts with
  | [] => EmptyString
  | p :: ps => p ++ str_join ps
  end.

(** [str(n)] of a non-negative integer, as an f-string renders it. *)
Definition str_of_nat (n : nat) : string :=
  NilZero.string_of_uint (Nat.to_uint n).

(** [s.startswith(p)] *)
Definition startswith (s p : string) : bool := String.prefix p s.

(** Truth value of a string: the empty string is false. *)
Definition str_truthy (s : string) : bool :=
  match s with
  | EmptyString => false
  | _ => true
  end.

(** [sorted(keys)] on strings: ascending in the order of [str]. *)
Fixpoint sorted_insert (k : string) (l : list string) : list string :=
  match l with
  | [] => [k]
  | x :: l' => if String.leb k x then k :: x :: l' else x :: sorted_insert k l'
  end.

Fixpoint sorted (l : list string) : list string :=
  match l with
  | [] => []
  | k :: l' => sorted_insert k (sorted l')
  end.

(** *** Numbers *)

Definition Qlt_bool (x y : Q) : bool := negb (Qle_bool y x).

Definition Qsum (l : list Q) : Q := fold_right Qplus (0 # 1)%Q l.

(** [numpy.mean(l)]: not a number on the empty list. *)
Definition np_mean (l : list Q) : option Q :=
  match l with
  | [] => None
  | _ => Some (Qsum l / inject_Z (Z.of_nat (List.length l)))%Q
  end.

(** A float: a number, or [None] for not-a-number. *)
Definition float : Type := option Q.

(** [x > y] on floats: false as soon as one side is not a number. *)
Definition float_gt (x y : float) : bool :=
  match x, y with
  | Some p, Some q => Qlt_bool q p
  | _, _ => false
  end.

(** *** Dictionaries *)

Section Dict.
Variables (K V : Type).
Variable eqb : K -> K -> bool.

Definition dict : Type := list (K * V).

Definition dict_keys (d : dict) : list K := map fst d.

Fixpoint dict_get (d : dict) (k : K) : option V :=
  match d with
  | [] => None
  | (k', v) :: d' => if eqb k' k then Some v else dict_get d' k
  end.

(** [d[k]] *)
Definition dict_getitem (d : dict) (k : K) : result V :=
  match dict_get d k with
  | Some v => Ok v
  | None => Raise KeyError
  end.

(** [del d[k]] for a key that is present. *)
Fixpoint dict_del (d : dict) (k : K) : dict :=
  match d with
  | [] => []
  | (k', v) :: d' => if eqb k' k then d' else (k', v) :: dict_del d' k
  end.
End Dict.

(** [d[k].append(x)] on a [defaultdict(list)]: a new key goes last. *)
Fixpoint defaultdict_append {A : Type} (d : dict string (list A)) (k : string)
    (x : A) : dict string (list A) :=
  match d with
  | [] => [(k, [x])]
  | (k', v) :: d' =>
      if String.eqb k' k then (k', v ++ [x]) :: d'
      else (k', v) :: defaultdict_append d' k x
  end.

(** ** The document tree of lxml *)

(** A node is an element or a comment; text lives in the [text] of its
    element and in the [tail] of the node it follows. *)
Inductive Node : Type :=
| HtmlElement (tag : string) (attrib : list (string * string))
    (text : string) (children : list Node) (tail : string)
| HtmlComment (content : string) (tail : string).

(** Where a node sits: at the root, or below a parent element between the
    siblings [before] (nearest first) and [after]. *)
Inductive Context : Type :=
| Top
| Inside (ptag : string) (pattrib : list (string * string))
    (ptext ptail : string) (before : list Node) (up : Context)
    (after : list Node).

Definition Loc : Type := (Node * Context)%type.

(** An [Element] is a position whose node is an [HtmlElement]. *)
Record Element : Type := mkElement {
  el_tag : string;
  el_attrib : list (string * string);
  el_text : string;
  el_children : list Node;
  el_tail : string;
  el_ctx : Context
}.

Definition node_of (e : Element) : Node :=
  HtmlElement (el_tag e) (el_attrib e) (el_text e) (el_children e) (el_tail e).

Definition loc_of (e : Element) : Loc := (node_of e, el_ctx e).

(** [isinstance(x, HtmlElement)], with the element when it holds. *)
Definition as_element (l : Loc) : option Element :=
  match l with
  | (HtmlElement tg at_ tx ch tl, c) => Some (mkElement tg at_ tx ch tl c)
  | (HtmlComment _ _, _) => None
  end.

Fixpoint elements_of (ls : list Loc) : list Element :=
  match ls with
  | [] => []
  | l :: ls' =>
      match as_element l with
      | Some e => e :: elements_of ls'
      | None => elements_of ls'
      end
  end.

Definition node_tail (n : Node) : string :=
  match n with
  | HtmlElement _ _ _ _ tl => tl
  | HtmlComment _ tl => tl
  end.

Fixpoint depth (c : Context) : nat :=
  match c with
  | Top => 0
  | Inside _ _ _ _ _ up _ => S (depth up)
  end.

(** [node.getparent()] *)
Definition getparent (l : Loc) : option Element :=
  match snd l with
  | Top => None
  | Inside pt pa ptx ptl before up after =>
      Some (mkElement pt pa ptx (rev before ++ fst l :: after) ptl up)
  end.

(** Positions of the nodes [before], walking away from the start node. *)
Fixpoint preceding_locs (mk : list Node -> list Node -> Context)
    (before after : list Node) : list Loc :=
  match before with
  | [] => []
  | b :: rest => (b, mk rest after) :: preceding_locs mk rest (b :: after)
  end.

(** Positions of the nodes [after], in document order. *)
Fixpoint following_locs (mk : list Node -> list Node -> Context)
    (before after : list Node) : list Loc :=
  match after with
  | [] => []
  | a :: rest => (a, mk before rest) :: following_locs mk (a :: before) rest
  end.

(** [node.itersiblings(preceding=...)]: every sibling node on that side. *)
Definition itersiblings (preceding : bool) (l : Loc) : list Loc :=
  match snd l with
  | Top => []
  | Inside pt pa ptx ptl before up after =>
      let mk := fun b a => Inside pt pa ptx ptl b up a in
      if preceding then preceding_locs mk before (fst l :: after)
      else following_locs mk (fst l :: before) after
  end.

Definition child_context (e : Element) (before after : list Node) : Context :=
  Inside (el_tag e) (el_attrib e) (el_text e) (el_tail e) before (el_ctx e)
    after.

(** [element.iterchildren()] *)
Definition iterchildren (e : Element) : list Loc :=
  following_locs (child_context e) [] (el_children e).

(** A walk over the child nodes [after] that lists each child followed by
    what [below] finds under it. *)
Section Walk.
Variable below : Node -> Context -> list Loc.
Variable mk : list Node -> list Node -> Context.

Fixpoint walk (before after : list Node) : list Loc :=
  match after with
  | [] => []
  | x :: rest =>
      (x, mk before rest) :: below x (mk before rest)
        ++ walk (x :: before) rest
  end.
End Walk.

(** Proper descendants of the node [n] at context [c], in document order. *)
Fixpoint descendants_at (n : Node) (c : Context) {struct n} : list Loc :=
  match n with
  | HtmlComment _ _ => []
  | HtmlElement tg at_ tx ch tl =>
      walk (fun x c' => descendants_at x c')
        (fun before after => Inside tg at_ tx tl before c after) [] ch
  end.

(** [element.iterdescendants()] *)
Definition iterdescendants (e : Element) : list Loc :=
  descendants_at (node_of e) (el_ctx e).

(** The root element of the tree a position belongs to. *)
Fixpoint root_of (n : Node) (c : Context) : Loc :=
  match c with
  | Top => (n, Top)
  | Inside pt pa ptx ptl before up after =>
      root_of (HtmlElement pt pa ptx (rev before ++ n :: after) ptl) up
  end.

(** *** XPath queries used by the utilities *)

(** [element.xpath('.//tag')]: the proper descendants named [tag]. *)
Definition xpath_descendants (name : string) (e : Element) : list Element :=
  filter (fun d => String.eqb (el_tag d) name) (elements_of (iterdescendants e)).

(** [element.xpath('//tag')]: every element of the document named [tag]. *)
Definition xpath_document (name : string) (e : Element) : list Element :=
  let r := root_of (node_of e) (el_ctx e) in
  filter (fun d => String.eqb (el_tag d) name)
    (elements_of (r :: descendants_at (fst r) (snd r))).

(** Text nodes strictly below a node, in document order. *)
Fixpoint text_nodes (n : Node) : list string :=
  match n with
  | HtmlComment _ _ => []
  | HtmlElement _ _ tx ch _ =>
      tx :: flat_map (fun c => text_nodes c ++ [node_tail c]) ch
  end.

(** [element.xpath('.//text()')] *)
Definition xpath_text (e : Element) : list string := text_nodes (node_of e).

(** Text nodes below [n] that have an [a] ancestor; [inside] tells whether
    [n] already lies in one. *)
Fixpoint a_text_nodes (inside : bool) (n : Node) : list string :=
  match n with
  | HtmlComment _ _ => []
  | HtmlElement tg _ tx ch _ =>
      let ins := inside || String.eqb tg "a" in
      (if ins then [tx] else [])
        ++ flat_map (fun c => a_text_nodes ins c
                              ++ (if ins then [node_tail c] else [])) ch
  end.

(** [element.xpath('.//a//text()')] *)
Definition xpath_a_text (e : Element) : list string :=
  flat_map (a_text_nodes false) (el_children e).

(** ** utils/element.py *)

(** The double quote character. *)
Definition dquote : string := String "034"%char EmptyString.

(** The members of [PUNCTUATION] with code point below 256. *)
Definition PUNCTUATION : list ascii :=
  list_ascii_of_string ("%<>{}*`,.?:;'!()" ++ dquote).

(** Modelled from the spec: reading a derived feature of the [Element]
    class (schemas/element.py is not part of the sources) on a value that
    may be [None].  The feature is computed by the utility function of the
    same name, and [None] has no attributes. *)
Definition attr {A : Type} (element : option Element)
    (property : option Element -> A) : result A :=
  match element with
  | None => Raise AttributeError
  | Some e => Ok (property (Some e))
  end.

Definition parent (element : option Element) : option Element :=
  match element with
  | None => None
  | Some e => getparent (loc_of e)
  end.

Definition children (element : option Element) (including : bool)
    : list Element :=
  match element with
  | None => []
  | Some e =>
      (if including then [e] else []) ++ elements_of (iterchildren e)
  end.

Definition siblings (element : option Element) (including : bool)
    : list Element :=
  match element with
  | None => []
  | Some e =>
      (if including then [e] else [])
        ++ elements_of (itersiblings true (loc_of e))
        ++ elements_of (itersiblings false (loc_of e))
  end.

Definition descendants (element : option Element) (including : bool)
    : list Element :=
  match element with
  | None => []
  | Some e =>
      (if including then [e] else []) ++ elements_of (iterdescendants e)
  end.

(** One attribute of the alias: [[k="v"]], or [[k]] when [v] is empty. *)
Definition alias_attrib (kv : string * string) : string :=
  let k := re_sub_whitespace (fst kv) in
  let v := re_sub_whitespace (snd kv) in
  if str_truthy v then "[" ++ k ++ "=" ++ dquote ++ v ++ dquote ++ "]"
  else "[" ++ k ++ "]".

Definition alias (element : option Element) : string :=
  match element with
  | None => EmptyString
  | Some e =>
      let tag := el_tag e in
      let attribs :=
        fold_left (fun attribs kv => attribs ++ [alias_attrib kv])
          (el_attrib e) [tag] in
      let result := str_join attribs in
      let nth := List.length (itersiblings true (loc_of e)) + 1 in
      result ++ (if negb (Nat.eqb nth 1)
                 then "::nth-child(" ++ str_of_nat nth ++ ")"
                 else EmptyString)
  end.

(** The recursion of [selector] and [path_raw] follows [parent]; it ends
    because the parent lies one level higher. *)
Definition height (element : option Element) : nat :=
  match element with
  | None => 0
  | Some e => S (depth (el_ctx e))
  end.

Definition inspect {A : Type} (a : A) : {b : A | a = b} :=
  exist _ a eq_refl.

Equations? selector (element : option Element) : string
    by wf (height element) lt :=
  selector None := EmptyString;
  selector (Some e) with inspect (parent (Some e)) := {
    | exist _ (Some p) Hp => selector (Some p) ++ ">" ++ alias (Some e);
    | exist _ None _ => alias (Some e) }.
Proof.
  revert Hp; unfold parent, getparent; simpl.
  destruct (el_ctx e); [discriminate|].
  intros H; injection H as <-; simpl; lia.
Qed.

Equations? path_raw (element : option Element) : string
    by wf (height element) lt :=
  path_raw None := EmptyString;
  path_raw (Some e) with inspect (parent (Some e)) := {
    | exist _ (Some p) Hp => path_raw (Some p) ++ "/" ++ el_tag e;
    | exist _ None _ => el_tag e }.
Proof.
  revert Hp; unfold parent, getparent; simpl.
  destruct (el_ctx e); [discriminate|].
  intros H; injection H as <-; simpl; lia.
Qed.

Definition path (element : option Element) : string :=
  match element with
  | None => EmptyString
  | Some e =>
      let result := path_raw (Some e) in
      let nth := List.length (itersiblings true (loc_of e)) + 1 in
      result ++ (if negb (Nat.eqb nth 1)
                 then ":nth-child(" ++ str_of_nat nth ++ ")"
                 else EmptyString)
  end.

Definition a_descendants (element : option Element) : list Element :=
  match element with
  | None => []
  | Some e =>
      fold_left (fun descendants descendant => descendants ++ [descendant])
        (xpath_descendants "a" e) []
  end.

Definition a_descendants_group (element : option Element)
    : result (dict string (list Element)) :=
  linked <- attr element a_descendants ;;
  Ok (fold_left
        (fun result linked_descendant =>
           let p := path_raw (Some linked_descendant) in
           defaultdict_append result p linked_descendant)
        linked []).

(** Assigning [__class__] on the list an XPath query returns is a
    [TypeError]; it is reached when the document has a [head]. *)
Definition children_of_head (element : option Element)
    : result (list Element) :=
  match element with
  | None => Ok []
  | Some e =>
      match xpath_document "head" e with
      | [] => Ok []
      | _ :: _ => Raise TypeError
      end
  end.

Definition descendants_of_body (element : option Element) : list Element :=
  match element with
  | None => []
  | Some e =>
      match xpath_document "body" e with
      | body :: _ => descendants (Some body) true
      | [] => []
      end
  end.

Definition text (element : option Element) : PyValue :=
  match element with
  | None => PyInt 0
  | Some e =>
      let text := str_join (xpath_text e) in
      PyStr (re_sub_whitespace text)
  end.

(** [text] of an element that is present is always a string. *)
Definition element_text (e : Element) : string :=
  re_sub_whitespace (str_join (xpath_text e)).

Definition number_of_char (element : option Element) : result nat :=
  py_len (text element).

Definition number_of_a_char (element : option Element) : nat :=
  match element with
  | None => 0
  | Some e =>
      let text := str_join (xpath_a_text e) in
      String.length (re_sub_whitespace text)
  end.

Definition number_of_p_descendants (element : option Element) : nat :=
  match element with
  | None => 0
  | Some e => List.length (xpath_descendants "p" e)
  end.

Definition number_of_a_descendants (element : option Element) : nat :=
  match element with
  | None => 0
  | Some e => List.length (xpath_descendants "a" e)
  end.

Definition number_of_punctuation (element : option Element) : nat :=
  match element with
  | None => 0
  | Some e =>
      let text := re_sub_whitespace (str_join (xpath_text e)) in
      let punctuations :=
        filter (fun c => existsb (Ascii.eqb c) PUNCTUATION)
          (list_ascii_of_string text) in
      List.length punctuations
  end.

Definition number_of_descendants (element : option Element) : nat :=
  match element with
  | None => 0
  | Some _ => List.length (descendants element false)
  end.

Definition number_of_siblings (element : option Element) : nat :=
  match element with
  | None => 0
  | Some _ => List.length (siblings element false)
  end.

Definition number_of_children (element : option Element) : nat :=
  match element with
  | None => 0
  | Some _ => List.length (children element false)
  end.

Definition Qint (n : nat) : Q := inject_Z (Z.of_nat n).

Definition density_of_text (element : option Element) : result Q :=
  n_desc <- attr element number_of_descendants ;;
  n_a_desc <- attr element number_of_a_descendants ;;
  if Qeq_bool (Qint n_desc - Qint n_a_desc) (0 # 1) then Ok (0 # 1)%Q
  else
    n_char <- bind (attr element number_of_char) (fun r => r) ;;
    n_a_char <- attr element number_of_a_char ;;
    Ok ((Qint n_char - Qint n_a_char) / (Qint n_desc - Qint n_a_desc))%Q.

Definition density_of_punctuation (element : option Element) : result Q :=
  n_char <- bind (attr element number_of_char) (fun r => r) ;;
  n_a_char <- attr element number_of_a_char ;;
  n_punct <- attr element number_of_punctuation ;;
  let result := ((Qint n_char - Qint n_a_char) / (Qint n_punct + (1 # 1)))%Q in
  Ok (if Qeq_bool result (0 # 1) then (1 # 1)%Q else result).

Section Similarity.
(** [utils/similarity.py] is a collaborator: a score for two strings. *)
Variable similarity : string -> string -> Q.

Definition similarity_with_element (element1 element2 : option Element)
    : result Q :=
  alias1 <- attr element1 alias ;;
  alias2 <- attr element2 alias ;;
  Ok (similarity alias1 alias2).

(** [similarity_with_element] on two elements that are present. *)
Definition element_similarity (e1 e2 : Element) : Q :=
  similarity (alias (Some e1)) (alias (Some e2)).

Definition similarity_with_siblings (element : option Element) : Q :=
  let scores :=
    fold_left
      (fun scores sibling =>
         match element with
         | Some e => scores ++ [element_similarity e sibling]
         | None => scores
         end)
      (siblings element false) [] in
  match np_mean scores with
  | None => (0 # 1)%Q
  | Some m => m
  end.
End Similarity.

(** ** schemas/element.py *)

(** Modelled from the spec: the [linked_descendants] property of the
    [Element] class (schemas/element.py is not part of the sources), "all
    <a>-like descendants". *)
Definition linked_descendants (e : Element) : list Element :=
  a_descendants (Some e).

(** Modelled from the spec: the [tag_path] property of the [Element] class,
    the "ancestor chain of bare tag names". *)
Definition tag_path (e : Element) : string := path_raw (Some e).

(** Modelled from the spec: the [parent_selector] property of the [Element]
    class, the alias chain "identifying their parent context". *)
Definition parent_selector (e : Element) : string :=
  selector (parent (Some e)).

(** ** extractors/list.py *)

Definition LIST_MIN_NUMBER : Z := 5.
Definition LIST_MIN_LENGTH : Q := (8 # 1)%Q.
Definition LIST_MAX_LENGTH : Q := (35 # 1)%Q.
Definition SIMILARITY_THRESHOLD : Q := (8 # 10)%Q.

Record ListExtractor : Type := mkListExtractor {
  min_number : Z;
  min_length : Q;
  max_length : Q;
  avg_length : Q;
  similarity_threshold : Q
}.

(** [ListExtractor.__init__] *)
Definition init (min_number : Z) (min_length max_length : Q)
    (similarity_threshold : Q) : ListExtractor :=
  mkListExtractor min_number min_length max_length
    ((min_length + max_length) / (2 # 1))%Q similarity_threshold.

Definition list_extractor : ListExtractor :=
  init LIST_MIN_NUMBER LIST_MIN_LENGTH LIST_MAX_LENGTH SIMILARITY_THRESHOLD.

(** One extracted item: [{'title': ..., 'href': ...}]. *)
Record Item : Type := mkItem {
  title : string;
  href : string
}.

(** [max(items, key=operator.itemgetter(1))]: the first item whose value
    no later item exceeds; a [ValueError] on an empty sequence. *)
Definition py_max_by_value (items : list (string * float))
    : result (string * float) :=
  match items with
  | [] => Raise ValueError
  | first :: rest =>
      Ok (fold_left
            (fun best item => if float_gt (snd item) (snd best) then item
                              else best)
            rest first)
  end.

Section Extractor.
(** Collaborators that are not part of the sources. *)
Variable similarity : string -> string -> Q.
Variable cluster_dict : dict string (list Element) -> dict Z (list Element).
Variable preprocess4list : option Element -> option Element.
Variable fromstring : string -> Element.
(** [numpy.exp] and the constant [math.sqrt(2 * numpy.pi)]. *)
Variable np_exp : Q -> Q.
Variable sqrt_two_pi : Q.
(** Two more properties of the [Element] class, kept abstract. *)
Variable linked_descendants_group_text_min_length : Element -> Q.
Variable linked_descendants_group_text_max_length : Element -> Q.

Variable self : ListExtractor.

Definition _probability_of_title_with_length (length : nat) : Q :=
  let sigma := (6 # 1)%Q in
  (np_exp ((-1 # 1) * ((Qint length - avg_length self) ^ 2)
           / ((2 # 1) * sigma ^ 2))
   / (sqrt_two_pi * sigma))%Q.

(** The four guards of the candidate loop: [false] where the loop says
    [continue]. *)
Definition is_candidate (descendant : Element) : bool :=
  let n_siblings := number_of_siblings (Some descendant) in
  if Z.ltb (Z.of_nat n_siblings + 1) (min_number self) then false
  else if Qlt_bool (max_length self)
            (linked_descendants_group_text_min_length descendant)
  then false
  else if Qlt_bool (linked_descendants_group_text_max_length descendant)
            (min_length self)
  then false
  else if Qlt_bool (similarity_with_siblings similarity (Some descendant))
            (similarity_threshold self)
  then false
  else true.

(** The first loop of [_build_clusters]: candidates grouped by the
    selector of their parent. *)
Definition group_candidates (element : option Element)
    : dict string (list Element) :=
  let descendants := descendants_of_body element in
  fold_left
    (fun descendants_tree descendant =>
       if is_candidate descendant
       then defaultdict_append descendants_tree
              (parent_selector descendant) descendant
       else descendants_tree)
    descendants [].

(** One step of the cut: the tree and [last_selector]. *)
Definition cut_step {A : Type}
    (state : dict string (list A) * option string) (selector : string)
    : dict string (list A) * option string :=
  let (descendants_tree, last_selector) := state in
  let drop :=
    match last_selector with
    | Some last =>
        str_truthy last && str_truthy selector && startswith last selector
    | None => false
    end in
  ((if drop then dict_del String.eqb descendants_tree selector
    else descendants_tree),
   Some selector).

(** The second loop of [_build_clusters]: "cut tree, remove parent
    block". *)
Definition cut_tree {A : Type} (descendants_tree : dict string (list A))
    : dict string (list A) :=
  let selectors := sorted (dict_keys descendants_tree) in
  fst (fold_left cut_step (rev selectors) (descendants_tree, None)).

Definition _build_clusters (element : option Element)
    : dict Z (list Element) :=
  cluster_dict (cut_tree (group_candidates element)).

(** The score of a cluster. *)
Definition cluster_score (cluster : list Element) : float :=
  np_mean (map (fun element => similarity_with_siblings similarity (Some element))
             cluster).

(** The loop of [_choose_best_cluster] on the pair
    [(clusters_score_arg_max, clusters_score_max)]. *)
Definition choose_step (state : Z * float) (entry : Z * list Element)
    : Z * float :=
  let (cluster_id, cluster) := entry in
  let clusters_score := cluster_score cluster in
  if float_gt clusters_score (snd state) then (cluster_id, clusters_score)
  else state.

Definition _choose_best_cluster (clusters : dict Z (list Element))
    : result (list Element) :=
  let (clusters_score_arg_max, _) :=
    fold_left choose_step clusters (0%Z, Some (-1 # 1)%Q) in
  dict_getitem Z.eqb clusters clusters_score_arg_max.

(** The first loop of [_extract_from_cluster]. *)
Definition probabilities_of_title (cluster : list Element)
    : dict string (list Q) :=
  fold_left
    (fun acc element =>
       fold_left
         (fun acc descendant =>
            let _tag_path := tag_path descendant in
            let descendant_text := element_text descendant in
            let probability_of_title :=
              _probability_of_title_with_length
                (String.length descendant_text) in
            defaultdict_append acc _tag_path probability_of_title)
         (linked_descendants element) acc)
    cluster [].

Definition best_tag_path (cluster : list Element) : result string :=
  let probabilities_of_title_avg :=
    map (fun kv => (fst kv, np_mean (snd kv)))
      (probabilities_of_title cluster) in
  best <- py_max_by_value probabilities_of_title_avg ;;
  Ok (fst best).

(** The second loop of [_extract_from_cluster]. *)
Definition extract_with_path (best : string) (cluster : list Element)
    : list Item :=
  fold_left
    (fun result element =>
       fold_left
         (fun result descendant =>
            let _tag_path := tag_path descendant in
            if negb (String.eqb _tag_path best) then result
            else
              let title := element_text descendant in
              match dict_get String.eqb (el_attrib descendant) "href" with
              | None => result
              | Some href =>
                  if negb (str_truthy href) then result
                  else result ++ [mkItem title href]
              end)
         (linked_descendants element) result)
    cluster [].

Definition _extract_from_cluster (cluster : list Element)
    : result (list Item) :=
  best <- best_tag_path cluster ;;
  Ok (extract_with_path best cluster).

Definition process (element : option Element) : result (list Item) :=
  let element := preprocess4list element in
  let clusters := _build_clusters element in
  best_cluster <- _choose_best_cluster clusters ;;
  _extract_from_cluster best_cluster.

(** [html2element] of utils/element.py. *)
Definition html2element (html : string) : option Element :=
  if negb (str_truthy html) then None else Some (fromstring html).

(** Modelled from the spec: [BaseExtractor.extract] (extractors/base.py is
    not part of the sources).  "html is empty/absent -> return an empty
    result immediately; not an exception"; otherwise the parsed document
    is processed. *)
Definition extract (html : string) : result (list Item) :=
  match html2element html with
  | None => Ok []
  | Some element => process (Some element)
  end.
End Extractor.

(** [extract_list]: the module-level extractor with the default settings. *)
Definition extract_list similarity cluster_dict preprocess4list fromstring
    np_exp sqrt_two_pi group_min group_max (html : string)
    : result (list Item) :=
  extract similarity cluster_dict preprocess4list fromstring np_exp
    sqrt_two_pi group_min group_max list_extractor html.

(** ** The alias as the specification words it *)

Definition remove_whitespace (s : string) : string :=
  string_of_list_ascii
    (filter (fun c => negb (is_whitespace c)) (list_ascii_of_string s)).

(** The 1-based position among the siblings: the number of preceding
    sibling nodes plus one. *)
Definition position_among_siblings (e : Element) : nat :=
  match el_ctx e with
  | Top => 1
  | Inside _ _ _ _ before _ _ => S (List.length before)
  end.

Definition render_attribute (name value : string) : string :=
  let name := remove_whitespace name in
  let value := remove_whitespace value in
  if String.eqb value EmptyString then "[" ++ name ++ "]"
  else "[" ++ name ++ "=" ++ dquote ++ value ++ dquote ++ "]".

Definition alias_spec (element : option Element) : string :=
  match element with
  | None => EmptyString
  | Some e =>
      let n := position_among_siblings e in
      el_tag e
        ++ str_join (map (fun kv => render_attribute (fst kv) (snd kv))
                       (el_attrib e))
        ++ (if Nat.eqb n 1 then EmptyString
            else "::nth-child(" ++ str_of_nat n ++ ")")
  end.

(** ** Groups and survivors of the candidate filter *)

(** The group stored under a key, empty when the key is absent. *)
Definition group_of {A : Type} (tree : dict string (list A)) (key : string)
    : list A :=
  match dict_get String.eqb tree key with
  | Some group => group
  | None => []
  end.

(** Every member of every group. *)
Definition grouped {A : Type} (tree : dict string (list A)) : list A :=
  flat_map snd tree.

(** The same extractor with another similarity threshold. *)
Definition with_threshold (self : ListExtractor) (threshold : Q)
    : ListExtractor :=
  mkListExtractor (min_number self) (min_length self) (max_length self)
    (avg_length self) threshold.

(** ** Example documents and collaborators *)

Definition sample_link (href text : string) : Node :=
  HtmlElement "a" [("href", href)] text [] EmptyString.

Definition sample_row (href text : string) : Node :=
  HtmlElement "li" [] EmptyString [sample_link href text] EmptyString.

Definition sample_list : Node :=
  HtmlElement "ul" [("class", "news list")] EmptyString
    [sample_row "/p/1" "Item number 1"; sample_row "/p/2" "Item number 2";
     sample_row "/p/3" "Item number 3"; sample_row "/p/4" "Item number 4";
     sample_row "/p/5" "Item number 5"] EmptyString.

(** A page whose body holds a list of five linked rows. *)
Definition sample_page : Element :=
  mkElement "html" [] EmptyString
    [HtmlElement "body" [] EmptyString [sample_list] EmptyString]
    EmptyString Top.

Definition plain_row (text : string) : Node :=
  HtmlElement "li" [] text [] EmptyString.

(** A page whose body holds five rows without any link. *)
Definition plain_page : Element :=
  mkElement "html" [] EmptyString
    [HtmlElement "body" [] EmptyString
       [HtmlElement "ul" [] EmptyString
          [plain_row "one"; plain_row "two"; plain_row "three";
           plain_row "four"; plain_row "five"] EmptyString] EmptyString]
    EmptyString Top.

(** A fragment without a body. *)
Definition fragment_page : Element :=
  mkElement "div" [] "hello" [] EmptyString Top.

(** A row whose only link has an address and no text. *)
Definition untitled_row : Element :=
  mkElement "li" [] EmptyString [sample_link "/x" EmptyString] EmptyString Top.

(** A similarity that looks at the first character only. *)
Definition sample_similarity (a b : string) : Q :=
  match a, b with
  | String x _, String y _ => if Ascii.eqb x y then (9 # 10)%Q else (1 # 10)%Q
  | _, _ => (0 # 1)%Q
  end.

(** A grouping utility that makes every selector a cluster of its own,
    numbered from 0. *)
Definition sample_cluster_dict (tree : dict string (list Element))
    : dict Z (list Element) :=
  combine (map Z.of_nat (seq 0 (List.length tree))) (map snd tree).

Definition sample_preprocess (element : option Element) : option Element :=
  element.

(** A decreasing positive stand-in for the exponential on negative input. *)
Definition sample_exp (x : Q) : Q := (1 / (1 - x))%Q.

Definition sample_sqrt_two_pi : Q := (5 # 2)%Q.

(** Shortest and longest link text below an element, 0 without links. *)
Definition sample_group_min (e : Element) : Q :=
  match map (fun d => String.length (element_text d)) (linked_descendants e)
  with
  | [] => (0 # 1)%Q
  | n :: ns => Qint (fold_left Nat.min ns n)
  end.

Definition sample_group_max (e : Element) : Q :=
  match map (fun d => String.length (element_text d)) (linked_descendants e)
  with
  | [] => (0 # 1)%Q
  | n :: ns => Qint (fold_left Nat.max ns n)
  end.

(** An extractor that accepts rows without link text. *)
Definition lenient_extractor : ListExtractor :=
  init 5 (0 # 1)%Q (35 # 1)%Q (8 # 10)%Q.

(** ** What one linked descendant yields *)

(** The records a linked descendant yields once [best] is the selected
    tag path: one record when it lies on that path and has a non-empty
    [href], none otherwise. *)
Definition emitted (best : string) (d : Element) : list Item :=
  if String.eqb (tag_path d) best then
    match dict_get String.eqb (el_attrib d) "href" with
    | Some h => if str_truthy h then [mkItem (element_text d) h] else []
    | None => []
    end
  else [].

(** A hyperlink with text and no nested link. *)
Definition bare_link : Element :=
  mkElement "a" [("href", "/p/1")] "Item number 1" [] EmptyString Top.

(** The rows of [plain_page]. *)
Definition plain_rows : list Element :=
  filter (fun e => String.eqb (el_tag e) "li")
    (descendants_of_body (Some plain_page)).

(** ** The cut, as the list of selectors it drops *)

(** The test of the cut loop: [selector] is dropped when it follows
    [last_selector], both are non-empty and [last_selector] starts with
    it. *)
Definition drops (last_selector : option string) (selector : string) : bool :=
  match last_selector with
  | Some last =>
      str_truthy last && str_truthy selector && startswith last selector
  | None => false
  end.

(** The selectors the walk over [selectors] drops, and those it keeps. *)
Fixpoint dropped_keys (last_selector : option string)
    (selectors : list string) : list string :=
  match selectors with
  | [] => []
  | s :: rest =>
      if drops last_selector s then s :: dropped_keys (Some s) rest
      else dropped_keys (Some s) rest
  end.

Fixpoint kept_keys (last_selector : option string)
    (selectors : list string) : list string :=
  match selectors with
  | [] => []
  | s :: rest =>
      if drops last_selector s then kept_keys (Some s) rest
      else s :: kept_keys (Some s) rest
  end.

(** Membership in a list of selectors. *)
Definition selector_in (l : list string) (s : string) : bool :=
  existsb (String.eqb s) l.

(** Strictly above, in the order of [str]. *)
Definition str_gt (a b : string) : Prop := String.leb b a = true /\ a <> b.

(** A tree with a list, one of its rows and a sibling block. *)
Definition sample_tree : dict string (list nat) :=
  [("html>body>ul", [1; 2]); ("html>body", [3]); ("html>body>div", [4]);
   ("html>body>ul>li", [5])].

(** Two clusters of rows with the same score. *)
Definition tie_clusters : dict Z (list Element) :=
  [(0%Z, plain_rows);
   (1%Z, filter (fun e => String.eqb (el_tag e) "li")
           (descendants_of_body (Some sample_page)))].

(** ** The cut as the specification words it *)

(** The walk that compares a selector with the selector kept last, and
    leaves that one in place when the current selector is dropped. *)
Fixpoint dropped_keys_retained (retained : option string)
    (selectors : list string) : list string :=
  match selectors with
  | [] => []
  | s :: rest =>
      if drops retained s then s :: dropped_keys_retained retained rest
      else dropped_keys_retained (Some s) rest
  end.

Definition cut_tree_retained {A : Type} (tree : dict string (list A))
    : dict string (list A) :=
  fold_left (fun t k => dict_del String.eqb t k)
    (dropped_keys_retained None (rev (sorted (dict_keys tree)))) tree.

(** ** Helpers for stating further properties *)

(** Whether a node is an element. *)
Definition is_element (n : Node) : bool :=
  match n with
  | HtmlElement _ _ _ _ _ => true
  | HtmlComment _ _ => false
  end.

(** The number of elements among some nodes. *)
Definition count_elements (l : list Node) : nat :=
  List.length (filter is_element l).

(** The number of characters some text nodes contribute once whitespace is
    removed. *)
Definition text_weight (l : list string) : nat :=
  list_sum (map (fun s => String.length (re_sub_whitespace s)) l).

(** Elements of the sample page. *)
Definition sample_body : Element :=
  nth 0 (descendants_of_body (Some sample_page)) sample_page.

Definition sample_ul : Element :=
  nth 1 (descendants_of_body (Some sample_page)) sample_page.

Definition sample_first_row : Element :=
  nth 2 (descendants_of_body (Some sample_page)) sample_page.

Definition sample_first_link : Element :=
  nth 3 (descendants_of_body (Some sample_page)) sample_page.

Definition sample_second_row : Element :=
  nth 4 (descendants_of_body (Some sample_page)) sample_page.

(** The selectors a walk has in view: the one it comes from, if any, and
    those still to visit. *)
Definition with_last (last_selector : option string) (l : list string)
    : list string :=
  match last_selector with
  | Some p => p :: l
  | None => l
  end.

(** Clusters that hold no element. *)
Definition empty_clusters : dict Z (list Element) :=
  [(1%Z, []); (0%Z, []); (2%Z, [])].

(** The dictionary [probabilities_of_title_avg] of [_extract_from_cluster]:
    the mean probability of every tag path, in order of first appearance. *)
Definition probabilities_of_title_avg (np_exp : Q -> Q) (sqrt_two_pi : Q)
    (self : ListExtractor) (cluster : list Element)
    : list (string * float) :=
  map (fun kv => (fst kv, np_mean (snd kv)))
    (probabilities_of_title np_exp sqrt_two_pi self cluster).

(** A page whose rows each hold five links: rows and links both repeat. *)
Definition nested_row (n : string) : Node :=
  HtmlElement "li" [] EmptyString
    [sample_link ("/a/" ++ n) "first link"; sample_link ("/b/" ++ n) "second";
     sample_link ("/c/" ++ n) "third link"; sample_link ("/d/" ++ n) "fourth";
     sample_link ("/e/" ++ n) "fifth link"] EmptyString.

Definition nested_page : Element :=
  mkElement "html" [] EmptyString
    [HtmlElement "body" [] EmptyString
       [HtmlElement "ul" [] EmptyString
          [nested_row "1"; nested_row "2"; nested_row "3"; nested_row "4";
           nested_row "5"] EmptyString] EmptyString]
    EmptyString Top.

Definition nested_ul : Element :=
  nth 1 (descendants_of_body (Some nested_page)) nested_page.

Definition nested_first_row : Element :=
  nth 2 (descendants_of_body (Some nested_page)) nested_page.

Definition nested_first_link : Element :=
  nth 3 (descendants_of_body (Some nested_page)) nested_page.

(** * Properties *)

Unset Implicit Arguments.

(** ** Strings and lists *)

Lemma re_sub_whitespace_spec (s : string) :
  re_sub_whitespace s = remove_whitespace s.
Proof.
  unfold remove_whitespace.
  induction s as [|c s IH]; simpl; [reflexivity|].
  destruct (is_whitespace c); simpl; now rewrite IH.
Qed.

Lemma str_truthy_eqb (s : string) :
  str_truthy s = negb (String.eqb s EmptyString).
Proof. destruct s; reflexivity. Qed.

Lemma str_append_assoc (a b c : string) :
  ((a ++ b) ++ c = a ++ (b ++ c))%string.
Proof. induction a as [|x a IH]; simpl; [reflexivity|now rewrite IH]. Qed.

Lemma str_join_app (l1 l2 : list string) :
  str_join (l1 ++ l2) = (str_join l1 ++ str_join l2)%string.
Proof.
  induction l1 as [|x l1 IH]; simpl; [reflexivity|].
  now rewrite IH, str_append_assoc.
Qed.

Lemma fold_left_snoc {A B : Type} (f : A -> B) (l : list A) (acc : list B) :
  fold_left (fun acc x => acc ++ [f x]) l acc = acc ++ map f l.
Proof.
  revert acc; induction l as [|x l IH]; intros acc; simpl.
  - now rewrite app_nil_r.
  - now rewrite IH, <- app_assoc.
Qed.

Lemma preceding_locs_length mk before after :
  List.length (preceding_locs mk before after) = List.length before.
Proof.
  revert after; induction before as [|b before IH]; intros after; simpl;
    [reflexivity|].
  now rewrite IH.
Qed.

Lemma nth_child_position (e : Element) :
  List.length (itersiblings true (loc_of e)) + 1 = position_among_siblings e.
Proof.
  unfold itersiblings, position_among_siblings, loc_of; simpl.
  destruct (el_ctx e); simpl; [reflexivity|].
  rewrite preceding_locs_length; lia.
Qed.

Lemma alias_attrib_spec (kv : string * string) :
  alias_attrib kv = render_attribute (fst kv) (snd kv).
Proof.
  unfold alias_attrib, render_attribute.
  rewrite !re_sub_whitespace_spec, str_truthy_eqb.
  now destruct (String.eqb (remove_whitespace (snd kv)) EmptyString).
Qed.

(** ** C9: the alias of an element *)

(** C9. For an element that is present, [alias] is the tag name, then every
    attribute in order as [[name="value"]] (or [[name]] when the value,
    once its whitespace is removed, is empty) with the whitespace removed
    from name and value, then [::nth-child(n)] for the 1-based position [n]
    among the siblings unless [n = 1]; the alias of an absent element is the
    empty string. *)
Theorem alias_refines_spec (element : option Element) :
  alias element = alias_spec element.
Proof.
  destruct element as [e|]; [|reflexivity].
  unfold alias, alias_spec.
  rewrite nth_child_position, fold_left_snoc; simpl.
  rewrite str_append_assoc; f_equal.
  f_equal.
  - f_equal. apply map_ext; intros kv; apply alias_attrib_spec.
  - now destruct (Nat.eqb (position_among_siblings e) 1).
Qed.

(** The whitespace removal keeps exactly the characters that are not
    whitespace, in order: nothing it returns is whitespace. *)
Lemma re_sub_whitespace_clean (s : string) (c : ascii) :
  In c (list_ascii_of_string (re_sub_whitespace s)) -> is_whitespace c = false.
Proof.
  rewrite re_sub_whitespace_spec; unfold remove_whitespace.
  rewrite list_ascii_of_string_of_list_ascii, filter_In.
  intros [_ H]; now destruct (is_whitespace c).
Qed.

(** A value that is only whitespace gives the bare [[name]]. *)
Example alias_blank_value :
  alias (Some (mkElement "div" [("class", " ")] EmptyString [] EmptyString
                 Top))
  = "div[class]".
Proof. reflexivity. Qed.

(** ** C3: accessors on an absent element *)

(** On an element that is present [text] is a string. *)
Lemma text_present (e : Element) : text (Some e) = PyStr (element_text e).
Proof. reflexivity. Qed.


(** C3. On an absent element [text] answers the integer 0 and not the empty
    string, so [number_of_char] fails on taking its length; and the two
    densities fail on reading a property of [None]. *)
Theorem absent_element_failures :
  text None = PyInt 0
  /\ text None <> PyStr EmptyString
  /\ number_of_char None = Raise TypeError
  /\ density_of_text None = Raise AttributeError
  /\ density_of_punctuation None = Raise AttributeError.
Proof.
  repeat split; try reflexivity.
  discriminate.
Qed.

(** The accessors that do guard against an absent element answer the zero
    of their type. *)
Lemma guarded_accessors_absent (similarity : string -> string -> Q) :
  selector None = EmptyString /\ path_raw None = EmptyString
  /\ path None = EmptyString /\ alias None = EmptyString
  /\ a_descendants None = [] /\ parent None = None
  /\ (forall b, children None b = []) /\ (forall b, siblings None b = [])
  /\ (forall b, descendants None b = [])
  /\ children_of_head None = Ok [] /\ descendants_of_body None = []
  /\ number_of_a_char None = 0 /\ number_of_p_descendants None = 0
  /\ number_of_a_descendants None = 0 /\ number_of_punctuation None = 0
  /\ number_of_descendants None = 0 /\ number_of_siblings None = 0
  /\ number_of_children None = 0
  /\ similarity_with_siblings similarity None = (0 # 1)%Q.
Proof.
  repeat split; reflexivity.
Qed.

(** The remaining accessors read a property of their argument first. *)
Lemma unguarded_accessors_absent (similarity : string -> string -> Q)
    (other : option Element) :
  a_descendants_group None = Raise AttributeError
  /\ similarity_with_element similarity None other = Raise AttributeError.
Proof. split; reflexivity. Qed.

(** ** C8: empty input *)

(** C8. [html2element] answers [None] on the empty string and, with the
    entry point guarding the absent document as the specification says,
    [extract_list] of the empty string is the empty list and not an error,
    whatever the collaborators are. *)
Theorem extract_list_empty similarity cluster_dict preprocess4list fromstring
    np_exp sqrt_two_pi group_min group_max :
  html2element fromstring EmptyString = None
  /\ extract_list similarity cluster_dict preprocess4list fromstring np_exp
       sqrt_two_pi group_min group_max EmptyString = Ok [].
Proof.
  split.
  - unfold html2element. reflexivity.
  - unfold extract_list, extract, html2element. reflexivity.
Qed.

(** ** Groups built by [defaultdict_append] *)

Lemma group_of_append {A : Type} (tree : dict string (list A))
    (k key : string) (x : A) :
  group_of (defaultdict_append tree k x) key
  = if String.eqb k key then group_of tree key ++ [x] else group_of tree key.
Proof.
  unfold group_of.
  induction tree as [|[k' v] tree IH]; simpl.
  - destruct (String.eqb k key); reflexivity.
  - destruct (String.eqb k' k) eqn:Hk; simpl.
    + apply String.eqb_eq in Hk; subst k'.
      destruct (String.eqb k key); reflexivity.
    + destruct (String.eqb k' key) eqn:Hkey; [|exact IH].
      apply String.eqb_eq in Hkey; subst k'.
      rewrite String.eqb_sym, Hk; reflexivity.
Qed.

Lemma grouped_append_In {A : Type} (tree : dict string (list A))
    (k : string) (x y : A) :
  In y (grouped (defaultdict_append tree k x)) <-> In y (grouped tree) \/ y = x.
Proof.
  unfold grouped.
  induction tree as [|[k' v] tree IH]; simpl.
  - intuition.
  - destruct (String.eqb k' k); simpl; rewrite !in_app_iff.
    + simpl; intuition.
    + rewrite IH; intuition.
Qed.

Lemma grouped_append_length {A : Type} (tree : dict string (list A))
    (k : string) (x : A) :
  List.length (grouped (defaultdict_append tree k x))
  = S (List.length (grouped tree)).
Proof.
  unfold grouped.
  induction tree as [|[k' v] tree IH]; simpl; [reflexivity|].
  destruct (String.eqb k' k); simpl; rewrite !length_app; simpl.
  - lia.
  - rewrite IH; lia.
Qed.

(** ** The candidate filter *)

Lemma Qlt_bool_false (x y : Q) : Qlt_bool x y = false <-> (y <= x)%Q.
Proof.
  unfold Qlt_bool; rewrite negb_false_iff; apply Qle_bool_iff.
Qed.

Lemma Qlt_bool_true (x y : Q) : Qlt_bool x y = true <-> (x < y)%Q.
Proof.
  unfold Qlt_bool; rewrite negb_true_iff.
  split; intros H.
  - apply Qnot_le_lt; intros Hle; apply Qle_bool_iff in Hle; congruence.
  - destruct (Qle_bool y x) eqn:E; [|reflexivity].
    apply Qle_bool_iff in E; exfalso; exact (Qlt_not_le _ _ H E).
Qed.

Section CandidateFilter.
Variable similarity : string -> string -> Q.
Variables group_min group_max : Element -> Q.

Local Abbreviation candidate :=
  (is_candidate similarity group_min group_max).
Local Abbreviation groups :=
  (group_candidates similarity group_min group_max).

Lemma is_candidate_iff (self : ListExtractor) (d : Element) :
  candidate self d = true <->
  (min_number self <= Z.of_nat (number_of_siblings (Some d)) + 1)%Z
  /\ (group_min d <= max_length self)%Q
  /\ (min_length self <= group_max d)%Q
  /\ (similarity_threshold self
      <= similarity_with_siblings similarity (Some d))%Q.
Proof.
  unfold is_candidate.
  destruct (Z.ltb_spec (Z.of_nat (number_of_siblings (Some d)) + 1)
              (min_number self)) as [Hn|Hn].
  { split; [discriminate|]. intros [H _]; lia. }
  destruct (Qlt_bool (max_length self) (group_min d)) eqn:H1.
  { apply Qlt_bool_true in H1. split; [discriminate|].
    intros (_ & H & _). exfalso; exact (Qlt_not_le _ _ H1 H). }
  destruct (Qlt_bool (group_max d) (min_length self)) eqn:H2.
  { apply Qlt_bool_true in H2. split; [discriminate|].
    intros (_ & _ & H & _). exfalso; exact (Qlt_not_le _ _ H2 H). }
  destruct (Qlt_bool (similarity_with_siblings similarity (Some d))
              (similarity_threshold self)) eqn:H3.
  { apply Qlt_bool_true in H3. split; [discriminate|].
    intros (_ & _ & _ & H). exfalso; exact (Qlt_not_le _ _ H3 H). }
  apply Qlt_bool_false in H1, H2, H3. tauto.
Qed.

Lemma group_loop_members (self : ListExtractor) (l : list Element)
    (acc : dict string (list Element)) (key : string) (d : Element) :
  In d (group_of
          (fold_left
             (fun tree x =>
                if candidate self x
                then defaultdict_append tree (parent_selector x) x
                else tree) l acc) key)
  <-> In d (group_of acc key)
      \/ (In d l /\ candidate self d = true /\ parent_selector d = key).
Proof.
  revert acc; induction l as [|x l IH]; intros acc; simpl.
  - tauto.
  - rewrite IH. destruct (candidate self x) eqn:Hx.
    + rewrite group_of_append.
      destruct (String.eqb (parent_selector x) key) eqn:Hk.
      * apply String.eqb_eq in Hk. rewrite in_app_iff; simpl.
        intuition (subst; auto).
      * apply String.eqb_neq in Hk.
        intuition (subst; try contradiction; auto).
    + intuition (subst; try congruence; auto).
Qed.

Lemma group_loop_grouped (self : ListExtractor) (l : list Element)
    (acc : dict string (list Element)) (d : Element) :
  In d (grouped
          (fold_left
             (fun tree x =>
                if candidate self x
                then defaultdict_append tree (parent_selector x) x
                else tree) l acc))
  <-> In d (grouped acc) \/ (In d l /\ candidate self d = true).
Proof.
  revert acc; induction l as [|x l IH]; intros acc; simpl.
  - tauto.
  - rewrite IH. destruct (candidate self x) eqn:Hx.
    + rewrite grouped_append_In. intuition (subst; auto).
    + intuition (subst; try congruence; auto).
Qed.

Lemma group_loop_length (self : ListExtractor) (l : list Element)
    (acc : dict string (list Element)) :
  List.length
    (grouped
       (fold_left
          (fun tree x =>
             if candidate self x
             then defaultdict_append tree (parent_selector x) x
             else tree) l acc))
  = List.length (grouped acc) + List.length (filter (candidate self) l).
Proof.
  revert acc; induction l as [|x l IH]; intros acc; simpl.
  - lia.
  - rewrite IH. destruct (candidate self x); simpl.
    + rewrite grouped_append_length; lia.
    + reflexivity.
Qed.

(** ** C4: which descendants enter a group *)

(** C4. A descendant of the body is in the group of a key exactly when the
    key is the selector of its parent and all four conditions hold: it has
    at least [min_number] rows counting itself, the shortest text of its
    link groups is at most [max_length], the longest is at least
    [min_length], and its similarity with its siblings is at least the
    threshold.  An element failing one condition is in no group. *)
Theorem candidate_group_membership (self : ListExtractor)
    (element : option Element) (key : string) (d : Element) :
  In d (group_of (groups self element) key)
  <-> In d (descendants_of_body element)
      /\ key = parent_selector d
      /\ (min_number self <= Z.of_nat (number_of_siblings (Some d)) + 1)%Z
      /\ (group_min d <= max_length self)%Q
      /\ (min_length self <= group_max d)%Q
      /\ (similarity_threshold self
          <= similarity_with_siblings similarity (Some d))%Q.
Proof.
  unfold group_candidates.
  rewrite (group_loop_members self (descendants_of_body element) [] key d).
  rewrite <- is_candidate_iff. unfold group_of; simpl.
  split.
  - intros [[]|(H1 & H2 & H3)]; auto.
  - intros (H1 & H2 & H3); right; auto.
Qed.

Lemma filter_length_le {A : Type} (p q : A -> bool) (l : list A) :
  (forall x, p x = true -> q x = true) ->
  List.length (filter p l) <= List.length (filter q l).
Proof.
  intros Hpq; induction l as [|x l IH]; simpl; [lia|].
  destruct (p x) eqn:Hp.
  - rewrite (Hpq x Hp); simpl; lia.
  - destruct (q x); simpl; lia.
Qed.

Lemma candidate_threshold_mono (self : ListExtractor) (t1 t2 : Q)
    (d : Element) :
  (t1 <= t2)%Q ->
  candidate (with_threshold self t2) d = true ->
  candidate (with_threshold self t1) d = true.
Proof.
  intros Ht. rewrite !is_candidate_iff; simpl.
  intros (H1 & H2 & H3 & H4); repeat split; auto.
  eapply Qle_trans; eauto.
Qed.

(** ** C7: raising the threshold *)

(** C7. For a fixed document and fixed other settings, when [t1 <= t2]
    every descendant that survives the filter with threshold [t2] also
    survives it with [t1], and the number of survivors with [t2] is at
    most the number with [t1]. *)
Theorem threshold_monotone (self : ListExtractor)
    (element : option Element) (t1 t2 : Q) :
  (t1 <= t2)%Q ->
  (forall d, In d (grouped (groups (with_threshold self t2) element)) ->
             In d (grouped (groups (with_threshold self t1) element)))
  /\ List.length (grouped (groups (with_threshold self t2) element))
     <= List.length (grouped (groups (with_threshold self t1) element)).
Proof.
  intros Ht. unfold group_candidates. split.
  - intros d.
    rewrite (group_loop_grouped (with_threshold self t2)
               (descendants_of_body element) [] d).
    rewrite (group_loop_grouped (with_threshold self t1)
               (descendants_of_body element) [] d).
    intros [H|[H1 H2]]; [now left|right; split; auto].
    eapply candidate_threshold_mono; eauto.
  - rewrite (group_loop_length (with_threshold self t2)
               (descendants_of_body element) []).
    rewrite (group_loop_length (with_threshold self t1)
               (descendants_of_body element) []).
    simpl. apply filter_length_le.
    intros d; apply candidate_threshold_mono; exact Ht.
Qed.
End CandidateFilter.

(** On the sample page the five rows survive at threshold 8/10 and none at
    95/100. *)
Lemma threshold_monotone_witness :
  ((8 # 10) <= (95 # 100))%Q
  /\ List.length
       (grouped (group_candidates sample_similarity sample_group_min
                   sample_group_max (with_threshold list_extractor (95 # 100)%Q)
                   (Some sample_page)))
     <= List.length
          (grouped (group_candidates sample_similarity sample_group_min
                      sample_group_max (with_threshold list_extractor (8 # 10)%Q)
                      (Some sample_page))).
Proof.
  assert (H : ((8 # 10) <= (95 # 100))%Q) by (unfold Qle; simpl; lia).
  split; [exact H|].
  exact (proj2 (threshold_monotone sample_similarity sample_group_min
                  sample_group_max list_extractor (Some sample_page)
                  (8 # 10)%Q (95 # 100)%Q H)).
Defined.

(** ** The document tree *)

(** Induction on a node with the hypothesis for every child. *)
Lemma Node_forall_ind (P : Node -> Prop) :
  (forall c t, P (HtmlComment c t)) ->
  (forall tg at_ tx ch tl, Forall P ch -> P (HtmlElement tg at_ tx ch tl)) ->
  forall n, P n.
Proof.
  intros Hc He.
  exact (fix ind (n : Node) : P n :=
           match n with
           | HtmlComment c t => Hc c t
           | HtmlElement tg at_ tx ch tl =>
               He tg at_ tx ch tl
                 ((fix all (l : list Node) : Forall P l :=
                     match l with
                     | [] => Forall_nil P
                     | x :: r => Forall_cons x (ind x) (all r)
                     end) ch)
           end).
Qed.

(** Every proper descendant sits strictly deeper than its ancestor. *)
Lemma descendants_at_deeper (n : Node) :
  forall c l, In l (descendants_at n c) -> depth c < depth (snd l).
Proof.
  induction n as [ct tl|tg at_ tx ch tl IH] using Node_forall_ind;
    intros c l; simpl; [tauto|].
  set (mk := fun before after => Inside tg at_ tx tl before c after).
  assert (Hmk : forall b a, depth (mk b a) = S (depth c)) by reflexivity.
  clearbody mk. generalize (@nil Node) as before.
  induction ch as [|x rest IHrest]; intros before; simpl; [tauto|].
  inversion IH as [|? ? Hx Hrest]; subst.
  intros [H|H]; [subst l; simpl; rewrite Hmk; lia|].
  apply in_app_iff in H as [H|H].
  - apply Hx in H. rewrite Hmk in H. lia.
  - eapply IHrest; eauto.
Qed.

Lemma elements_of_In (ls : list Loc) (d : Element) :
  In d (elements_of ls) <-> In (loc_of d) ls.
Proof.
  induction ls as [|[n c] ls IH]; simpl; [tauto|].
  destruct n as [tg at_ tx ch tl|ct tl]; simpl.
  - rewrite IH. unfold loc_of, node_of. destruct d; simpl.
    split; intros [H|H]; auto; left; congruence.
  - rewrite IH. unfold loc_of, node_of.
    split; [auto|intros [H|H]; [discriminate|auto]].
Qed.

Lemma descendants_deeper (e d : Element) :
  In d (descendants (Some e) false) -> depth (el_ctx e) < depth (el_ctx d).
Proof.
  simpl. rewrite elements_of_In. unfold iterdescendants.
  intros H; apply descendants_at_deeper in H; exact H.
Qed.

Lemma a_descendants_filter (e : Element) :
  a_descendants (Some e) = xpath_descendants "a" e.
Proof.
  unfold a_descendants.
  rewrite (fold_left_snoc (fun d => d)); simpl. apply map_id.
Qed.

(** ** The two loops of [_extract_from_cluster] *)

Lemma fold_left_nested {A B C : Type} (f : C -> B -> C) (g : A -> list B)
    (l : list A) (acc : C) :
  fold_left (fun acc x => fold_left f (g x) acc) l acc
  = fold_left f (flat_map g l) acc.
Proof.
  revert acc; induction l as [|x l IH]; intros acc; simpl; [reflexivity|].
  now rewrite fold_left_app, IH.
Qed.

Lemma fold_left_pointwise {A B : Type} (f g : B -> A -> B) (l : list A)
    (acc : B) :
  (forall b a, f b a = g b a) -> fold_left f l acc = fold_left g l acc.
Proof.
  intros H; revert acc; induction l as [|x l IH]; intros acc; simpl;
    [reflexivity|].
  now rewrite H, IH.
Qed.

Lemma fold_left_emit {A B : Type} (f : A -> list B) (l : list A)
    (acc : list B) :
  fold_left (fun acc x => acc ++ f x) l acc = acc ++ flat_map f l.
Proof.
  revert acc; induction l as [|x l IH]; intros acc; simpl.
  - now rewrite app_nil_r.
  - now rewrite IH, app_assoc.
Qed.

Lemma extract_with_path_emitted (best : string) (cluster : list Element) :
  extract_with_path best cluster
  = flat_map (emitted best) (flat_map linked_descendants cluster).
Proof.
  unfold extract_with_path.
  rewrite (fold_left_nested _ linked_descendants).
  transitivity (fold_left (fun acc d => acc ++ emitted best d)
                  (flat_map linked_descendants cluster) []);
    [|exact (fold_left_emit (emitted best) _ [])].
  apply fold_left_pointwise; intros acc d.
  unfold emitted.
  destruct (String.eqb (tag_path d) best); simpl;
    [|now rewrite app_nil_r].
  destruct (dict_get String.eqb (el_attrib d) "href") as [h|];
    [|now rewrite app_nil_r].
  destruct (str_truthy h); simpl; [reflexivity|now rewrite app_nil_r].
Qed.

(** ** C10: linked descendants are proper descendants *)

(** C10. The linked descendants of an element are exactly its proper
    descendants whose tag is [a]; the element itself is never one of them,
    whatever its own tag; and an element without an [a] below it has no
    linked descendants and adds nothing to the records extracted from a
    cluster. *)
Theorem linked_descendants_proper (e : Element) :
  (forall d, In d (linked_descendants e)
             <-> In d (descendants (Some e) false) /\ el_tag d = "a")
  /\ ~ In e (linked_descendants e)
  /\ ((forall d, In d (descendants (Some e) false) -> el_tag d <> "a") ->
      linked_descendants e = []
      /\ forall best before after,
           extract_with_path best (before ++ e :: after)
           = extract_with_path best (before ++ after)).
Proof.
  assert (Hiff : forall d, In d (linked_descendants e)
             <-> In d (descendants (Some e) false) /\ el_tag d = "a").
  { intros d. unfold linked_descendants.
    rewrite a_descendants_filter. unfold xpath_descendants.
    rewrite filter_In, String.eqb_eq. reflexivity. }
  split; [exact Hiff|split].
  - intros H. apply Hiff in H as [H _].
    apply descendants_deeper in H. lia.
  - intros Hnone.
    assert (Hnil : linked_descendants e = []).
    { destruct (linked_descendants e) as [|d l] eqn:E; [reflexivity|].
      exfalso. assert (Hd : In d (d :: l)) by now left.
      apply Hiff in Hd as [Hd Ha]. exact (Hnone d Hd Ha). }
    split; [exact Hnil|].
    intros best before after.
    rewrite !extract_with_path_emitted, !flat_map_app; simpl.
    now rewrite Hnil.
Qed.

(** A hyperlink without a nested link has no linked descendants, is not its
    own linked descendant, and yields no record. *)
Lemma linked_descendants_proper_witness :
  el_tag bare_link = "a"
  /\ ~ In bare_link (linked_descendants bare_link)
  /\ linked_descendants bare_link = []
  /\ extract_with_path "a" [bare_link] = [].
Proof.
  destruct (linked_descendants_proper bare_link) as (_ & Hself & Hnone).
  assert (H : forall d, In d (descendants (Some bare_link) false) ->
                        el_tag d <> "a") by (intros d []).
  destruct (Hnone H) as [Hnil Hcut].
  split; [reflexivity|].
  split; [exact Hself|].
  split; [exact Hnil|exact (Hcut "a" [] [])].
Defined.

(** ** C1: the records of the winning cluster *)

Lemma append_keys {A : Type} (tree : dict string (list A)) (k key : string)
    (x : A) :
  In key (dict_keys (defaultdict_append tree k x))
  <-> In key (dict_keys tree) \/ key = k.
Proof.
  unfold dict_keys.
  induction tree as [|[k' v] tree IH]; simpl.
  - intuition.
  - destruct (String.eqb k' k) eqn:Hk; simpl.
    + apply String.eqb_eq in Hk; subst. intuition.
    + rewrite IH. intuition.
Qed.

Lemma append_loop_keys {A B : Type} (key_of : A -> string) (val_of : A -> B)
    (l : list A) (acc : dict string (list B)) (key : string) :
  In key (dict_keys
            (fold_left
               (fun acc d => defaultdict_append acc (key_of d) (val_of d))
               l acc))
  <-> In key (dict_keys acc) \/ exists d, In d l /\ key_of d = key.
Proof.
  revert acc; induction l as [|x l IH]; intros acc; simpl.
  - split; [auto|intros [H|(d & [] & _)]; exact H].
  - rewrite IH, append_keys. split.
    + intros [[H|H]|(d & Hd & Hk)]; eauto.
    + intros [H|(d & [Hd|Hd] & Hk)]; subst; eauto.
Qed.

Lemma max_loop_In (l all : list (string * float)) (best : string * float) :
  In best all -> incl l all ->
  In (fold_left
        (fun best item => if float_gt (snd item) (snd best) then item else best)
        l best) all.
Proof.
  revert best; induction l as [|x l IH]; intros best Hb Hl; simpl; [exact Hb|].
  apply IH.
  - destruct (float_gt (snd x) (snd best)); [apply Hl; now left|exact Hb].
  - intros y Hy; apply Hl; now right.
Qed.

Lemma py_max_by_value_In (items : list (string * float)) :
  items <> [] ->
  exists best, py_max_by_value items = Ok best /\ In best items.
Proof.
  destruct items as [|first rest]; [congruence|intros _].
  unfold py_max_by_value. eexists; split; [reflexivity|].
  apply (max_loop_In rest (first :: rest) first); [now left|].
  intros y Hy; now right.
Qed.

Section ExtractFromCluster.
Variable np_exp : Q -> Q.
Variable sqrt_two_pi : Q.
Variable self : ListExtractor.

Lemma probabilities_of_title_keys (cluster : list Element) (key : string) :
  In key (dict_keys (probabilities_of_title np_exp sqrt_two_pi self cluster))
  <-> exists d, In d (flat_map linked_descendants cluster)
                /\ tag_path d = key.
Proof.
  unfold probabilities_of_title.
  rewrite (fold_left_nested _ linked_descendants).
  rewrite (append_loop_keys tag_path
             (fun d => _probability_of_title_with_length np_exp sqrt_two_pi
                         self (String.length (element_text d)))).
  simpl. tauto.
Qed.

Lemma best_tag_path_present (cluster : list Element) :
  flat_map linked_descendants cluster <> [] ->
  exists best,
    best_tag_path np_exp sqrt_two_pi self cluster = Ok best
    /\ exists d, In d (flat_map linked_descendants cluster)
                 /\ tag_path d = best.
Proof.
  intros Hne. unfold best_tag_path.
  set (avg := map (fun kv => (fst kv, np_mean (snd kv)))
                (probabilities_of_title np_exp sqrt_two_pi self cluster)).
  assert (Hkeys : forall key, In key (map fst avg)
            <-> exists d, In d (flat_map linked_descendants cluster)
                          /\ tag_path d = key).
  { intros key. unfold avg. rewrite map_map; simpl.
    apply probabilities_of_title_keys. }
  destruct (py_max_by_value_In avg) as (best & Hbest & Hin).
  { destruct (flat_map linked_descendants cluster) as [|d l] eqn:E;
      [congruence|].
    assert (Hk : In (tag_path d) (map fst avg))
      by (apply Hkeys; exists d; split; [now left|reflexivity]).
    intros Hnil; rewrite Hnil in Hk; exact Hk. }
  rewrite Hbest; simpl. exists (fst best); split; [reflexivity|].
  apply Hkeys. apply in_map; exact Hin.
Qed.

Lemma best_tag_path_absent (cluster : list Element) :
  flat_map linked_descendants cluster = [] ->
  best_tag_path np_exp sqrt_two_pi self cluster = Raise ValueError.
Proof.
  intros Hnil. unfold best_tag_path, probabilities_of_title.
  rewrite (fold_left_nested _ linked_descendants), Hnil. reflexivity.
Qed.

Lemma emitted_In (best : string) (d : Element) (it : Item) :
  In it (emitted best d)
  <-> tag_path d = best
      /\ href it <> EmptyString
      /\ dict_get String.eqb (el_attrib d) "href" = Some (href it)
      /\ title it = element_text d.
Proof.
  unfold emitted.
  destruct (String.eqb (tag_path d) best) eqn:Hp.
  - apply String.eqb_eq in Hp.
    destruct (dict_get String.eqb (el_attrib d) "href") as [h|].
    + destruct h as [|c h]; simpl.
      * split; [tauto|]. intros (_ & Hne & Hh & _).
        injection Hh as Hh. congruence.
      * split.
        -- intros [<-|[]]; simpl. repeat split; auto; discriminate.
        -- intros (_ & _ & Hh & Ht). left. destruct it as [t h']; simpl in *.
           injection Hh as ->. now subst t.
    + simpl. split; [tauto|]. intros (_ & _ & Hh & _); discriminate.
  - apply String.eqb_neq in Hp. simpl. tauto.
Qed.

(** C1 (as the code has it). When the cluster has a linked descendant, a
    best tag path is selected among the tag paths of its linked descendants
    and the extraction returns, in order, one record per linked descendant
    that lies on that path and has a non-empty [href]: a record comes from a
    descendant exactly when its tag path is the best one and its [href] is
    present and non-empty, and then its title is the computed text, which
    is not tested.  No returned record has an empty [href]. *)
Theorem extract_from_cluster_records (cluster : list Element) :
  flat_map linked_descendants cluster <> [] ->
  exists best,
    best_tag_path np_exp sqrt_two_pi self cluster = Ok best
    /\ (exists d, In d (flat_map linked_descendants cluster)
                  /\ tag_path d = best)
    /\ _extract_from_cluster np_exp sqrt_two_pi self cluster
       = Ok (flat_map (emitted best) (flat_map linked_descendants cluster))
    /\ (forall d it,
          In it (emitted best d)
          <-> tag_path d = best
              /\ href it <> EmptyString
              /\ dict_get String.eqb (el_attrib d) "href" = Some (href it)
              /\ title it = element_text d)
    /\ (forall it,
          In it (flat_map (emitted best)
                   (flat_map linked_descendants cluster)) ->
          href it <> EmptyString).
Proof.
  intros Hne.
  destruct (best_tag_path_present cluster Hne) as (best & Hbest & Hd).
  exists best. split; [exact Hbest|]. split; [exact Hd|]. split.
  - unfold _extract_from_cluster. rewrite Hbest; simpl.
    now rewrite extract_with_path_emitted.
  - split; [intros d it; apply emitted_In|].
    intros it Hit. apply in_flat_map in Hit as (d & _ & Hit).
    apply emitted_In in Hit. tauto.
Qed.
End ExtractFromCluster.

(** The rows of the sample page give five records. *)
Lemma extract_from_cluster_records_witness :
  exists best,
    _extract_from_cluster sample_exp sample_sqrt_two_pi list_extractor
      (descendants (Some sample_page) false)
    = Ok (flat_map (emitted best)
            (flat_map linked_descendants
               (descendants (Some sample_page) false)))
    /\ best = "html/body/ul/li/a".
Proof.
  assert (Hne : flat_map linked_descendants
                  (descendants (Some sample_page) false) <> [])
    by (vm_compute; discriminate).
  destruct (extract_from_cluster_records sample_exp sample_sqrt_two_pi
              list_extractor _ Hne) as (best & Hbest & _ & Hres & _).
  exists best. split; [exact Hres|].
  assert (E : best_tag_path sample_exp sample_sqrt_two_pi list_extractor
                (descendants (Some sample_page) false)
              = Ok "html/body/ul/li/a") by (vm_compute; reflexivity).
  rewrite E in Hbest. now injection Hbest as <-.
Defined.

(** C1, counterexample. A row whose only link has an address and no text
    yields a record with an empty title. *)
Lemma untitled_record_emitted :
  _extract_from_cluster sample_exp sample_sqrt_two_pi list_extractor
    [untitled_row]
  = Ok [mkItem EmptyString "/x"]
  /\ title (mkItem EmptyString "/x") = EmptyString.
Proof. split; [vm_compute; reflexivity|reflexivity]. Qed.

(** The filter on titles is missing for every exponential, constant and
    setting. *)
Lemma untitled_record_any_model :
  ~ (forall np_exp sqrt_two_pi self cluster items,
       _extract_from_cluster np_exp sqrt_two_pi self cluster = Ok items ->
       forall it, In it items -> title it <> EmptyString).
Proof.
  intros H.
  assert (E : _extract_from_cluster sample_exp sample_sqrt_two_pi
                list_extractor [untitled_row]
              = Ok [mkItem EmptyString "/x"]) by (vm_compute; reflexivity).
  apply (H _ _ _ _ _ E (mkItem EmptyString "/x")); [now left|reflexivity].
Qed.

(** ** C2: the two fatal conditions *)

Lemma group_candidates_none similarity group_min group_max self element :
  (forall d, In d (descendants_of_body element) ->
             is_candidate similarity group_min group_max self d = false) ->
  group_candidates similarity group_min group_max self element = [].
Proof.
  unfold group_candidates.
  generalize (@nil (string * list Element)) as acc.
  induction (descendants_of_body element) as [|x l IH]; intros acc H; simpl.
  - reflexivity.
  - rewrite (H x) by now left. apply IH. intros d Hd; apply H; now right.
Qed.

Section Process.
Variable similarity : string -> string -> Q.
Variable cluster_dict : dict string (list Element) -> dict Z (list Element).
Variable preprocess4list : option Element -> option Element.
Variable np_exp : Q -> Q.
Variable sqrt_two_pi : Q.
Variables group_min group_max : Element -> Q.
Variable self : ListExtractor.

Local Abbreviation run :=
  (process similarity cluster_dict preprocess4list np_exp sqrt_two_pi
     group_min group_max self).
Local Abbreviation clusters_of :=
  (_build_clusters similarity cluster_dict group_min group_max self).

(** C2 (as the code has it). With a grouping utility that makes no cluster
    out of no group: when no descendant of the body passes the filters, in
    particular when there is no body, [process] raises [KeyError]; when the
    chosen cluster has no linked descendant, [process] raises
    [ValueError].  Nothing in [process] catches either exception, so the
    call ends by the exception reaching the caller, and no list, partial or
    not, is returned. *)
Theorem process_fatal (element : option Element) :
  cluster_dict [] = [] ->
  (descendants_of_body (preprocess4list element) = [] ->
   run element = Raise KeyError)
  /\ ((forall d, In d (descendants_of_body (preprocess4list element)) ->
                 is_candidate similarity group_min group_max self d = false) ->
      run element = Raise KeyError)
  /\ (forall best,
        _choose_best_cluster similarity (clusters_of (preprocess4list element))
        = Ok best ->
        flat_map linked_descendants best = [] ->
        run element = Raise ValueError).
Proof.
  intros Hempty.
  assert (Hnone :
    (forall d, In d (descendants_of_body (preprocess4list element)) ->
               is_candidate similarity group_min group_max self d = false) ->
    run element = Raise KeyError).
  { intros H. unfold process, _build_clusters.
    rewrite (group_candidates_none _ _ _ _ _ H).
    unfold cut_tree; simpl. rewrite Hempty. reflexivity. }
  split; [|split].
  - intros Hbody. apply Hnone. rewrite Hbody. intros d [].
  - exact Hnone.
  - intros best Hbest Hlinks. unfold process. rewrite Hbest; simpl.
    unfold _extract_from_cluster.
    now rewrite (best_tag_path_absent np_exp sqrt_two_pi self best Hlinks).
Qed.
End Process.

(** A fragment without a body and a page whose rows fail the length filter
    raise [KeyError]; rows without links, once accepted, raise
    [ValueError]. *)
Lemma process_fatal_witness :
  process sample_similarity sample_cluster_dict sample_preprocess sample_exp
    sample_sqrt_two_pi sample_group_min sample_group_max list_extractor
    (Some fragment_page) = Raise KeyError
  /\ process sample_similarity sample_cluster_dict sample_preprocess
       sample_exp sample_sqrt_two_pi sample_group_min sample_group_max
       list_extractor (Some plain_page) = Raise KeyError
  /\ process sample_similarity sample_cluster_dict sample_preprocess
       sample_exp sample_sqrt_two_pi sample_group_min sample_group_max
       lenient_extractor (Some plain_page) = Raise ValueError.
Proof.
  assert (Hempty : sample_cluster_dict [] = []) by reflexivity.
  split; [|split].
  - apply (proj1 (process_fatal sample_similarity sample_cluster_dict
                    sample_preprocess sample_exp sample_sqrt_two_pi
                    sample_group_min sample_group_max list_extractor
                    (Some fragment_page) Hempty)).
    reflexivity.
  - apply (proj1 (proj2 (process_fatal sample_similarity sample_cluster_dict
                    sample_preprocess sample_exp sample_sqrt_two_pi
                    sample_group_min sample_group_max list_extractor
                    (Some plain_page) Hempty))).
    intros d Hd. vm_compute in Hd.
    repeat (destruct Hd as [<-|Hd]; [vm_compute; reflexivity|]).
    destruct Hd.
  - apply (proj2 (proj2 (process_fatal sample_similarity sample_cluster_dict
                    sample_preprocess sample_exp sample_sqrt_two_pi
                    sample_group_min sample_group_max lenient_extractor
                    (Some plain_page) Hempty)) plain_rows).
    + vm_compute; reflexivity.
    + vm_compute; reflexivity.
Defined.

(** C2, counterexample. On a fragment without a body the call does not
    return any value: it ends by the [KeyError] of the lookup of cluster 0
    leaving [process]; on rows without links, once accepted, it ends by the
    [ValueError] of the maximum of an empty sequence. *)
Lemma process_raises_unhandled :
  process sample_similarity sample_cluster_dict sample_preprocess sample_exp
    sample_sqrt_two_pi sample_group_min sample_group_max list_extractor
    (Some fragment_page) = Raise KeyError
  /\ process sample_similarity sample_cluster_dict sample_preprocess
       sample_exp sample_sqrt_two_pi sample_group_min sample_group_max
       lenient_extractor (Some plain_page) = Raise ValueError
  /\ ~ (exists value,
          process sample_similarity sample_cluster_dict sample_preprocess
            sample_exp sample_sqrt_two_pi sample_group_min sample_group_max
            list_extractor (Some fragment_page) = Ok value).
Proof.
  split; [vm_compute; reflexivity|].
  split; [vm_compute; reflexivity|].
  intros [value H]. vm_compute in H. discriminate.
Qed.

(** Without a guard in front of it, [process] on an absent document raises
    [KeyError] as well. *)
Lemma process_absent_document similarity cluster_dict np_exp sqrt_two_pi
    group_min group_max self :
  cluster_dict [] = [] ->
  process similarity cluster_dict (fun element => element) np_exp
    sqrt_two_pi group_min group_max self None = Raise KeyError.
Proof.
  intros Hempty. unfold process, _build_clusters, group_candidates,
    cut_tree; simpl. rewrite Hempty. reflexivity.
Qed.

(** ** C5: choosing the best cluster *)

Lemma dict_get_unique (clusters : dict Z (list Element)) (cid : Z)
    (cluster : list Element) :
  NoDup (dict_keys clusters) -> In (cid, cluster) clusters ->
  dict_get Z.eqb clusters cid = Some cluster.
Proof.
  unfold dict_keys.
  induction clusters as [|[k v] clusters IH]; simpl; [tauto|].
  intros Hnd Hin. inversion Hnd as [|? ? Hk Hnd']; subst.
  destruct Hin as [Heq|Hin].
  - injection Heq as -> ->. now rewrite Z.eqb_refl.
  - destruct (Z.eqb_spec k cid) as [->|_]; [|now apply IH].
    exfalso. apply Hk. change cid with (fst (cid, cluster)).
    now apply in_map.
Qed.

Section ChooseBest.
Variable similarity : string -> string -> Q.

Local Abbreviation score := (cluster_score similarity).
Local Abbreviation step := (choose_step similarity).

(** The loop from the state [(arg, m)]: the final maximum bounds [m] and
    every score; either nothing exceeded [m] and the state is unchanged, or
    the final pair is the first entry that reaches the final maximum. *)
Lemma choose_loop_spec (clusters : dict Z (list Element)) :
  forall (arg : Z) (m : Q),
  exists (arg' : Z) (m' : Q),
    fold_left step clusters (arg, Some m) = (arg', Some m')
    /\ (m <= m')%Q
    /\ (forall cid c s, In (cid, c) clusters -> score c = Some s ->
                        (s <= m')%Q)
    /\ ((arg' = arg /\ m' = m)
        \/ exists i c,
             nth_error clusters i = Some (arg', c)
             /\ score c = Some m'
             /\ (m < m')%Q
             /\ forall j cj cl s,
                  j < i -> nth_error clusters j = Some (cj, cl) ->
                  score cl = Some s -> (s < m')%Q).
Proof.
  induction clusters as [|[cid c] clusters IH]; intros arg m.
  - exists arg, m. simpl. split; [reflexivity|]. split; [apply Qle_refl|].
    split; [intros ? ? ? []|now left].
  - simpl. destruct (score c) as [s|] eqn:Hs; simpl.
    + destruct (Qlt_bool m s) eqn:Hlt.
      * apply Qlt_bool_true in Hlt.
        destruct (IH cid s) as (arg' & m' & Hfold & Hle & Hall & Hcase).
        exists arg', m'. split; [exact Hfold|].
        split; [apply Qlt_le_weak; eapply Qlt_le_trans; eauto|].
        split.
        { intros cid0 c0 s0 [Heq|Hin] Hs0.
          - injection Heq as <- <-. rewrite Hs in Hs0.
            injection Hs0 as <-. exact Hle.
          - eapply Hall; eauto. }
        right. destruct Hcase as [[-> ->]|(i & c1 & Hnth & Hsc & Hlt1 & Hbefore)].
        { exists 0, c. simpl. split; [reflexivity|].
          split; [exact Hs|]. split; [exact Hlt|].
          intros j ? ? ? Hj; lia. }
        exists (S i), c1. simpl. split; [exact Hnth|].
        split; [exact Hsc|]. split; [eapply Qlt_trans; eauto|].
        intros [|j] cj cl s0 Hj Hnj Hs0; simpl in Hnj.
        { injection Hnj as <- <-. rewrite Hs in Hs0.
          injection Hs0 as <-. exact Hlt1. }
        eapply Hbefore; eauto; lia.
      * apply Qlt_bool_false in Hlt.
        destruct (IH arg m) as (arg' & m' & Hfold & Hle & Hall & Hcase).
        exists arg', m'. split; [exact Hfold|]. split; [exact Hle|].
        split.
        { intros cid0 c0 s0 [Heq|Hin] Hs0.
          - injection Heq as <- <-. rewrite Hs in Hs0.
            injection Hs0 as <-. eapply Qle_trans; eauto.
          - eapply Hall; eauto. }
        destruct Hcase as [Hsame|(i & c1 & Hnth & Hsc & Hlt1 & Hbefore)];
          [now left|right].
        exists (S i), c1. simpl. split; [exact Hnth|].
        split; [exact Hsc|]. split; [exact Hlt1|].
        intros [|j] cj cl s0 Hj Hnj Hs0; simpl in Hnj.
        { injection Hnj as <- <-. rewrite Hs in Hs0.
          injection Hs0 as <-. eapply Qle_lt_trans; eauto. }
        eapply Hbefore; eauto; lia.
    + destruct (IH arg m) as (arg' & m' & Hfold & Hle & Hall & Hcase).
      exists arg', m'. split; [exact Hfold|]. split; [exact Hle|].
      split.
      { intros cid0 c0 s0 [Heq|Hin] Hs0.
        - injection Heq as <- <-. congruence.
        - eapply Hall; eauto. }
      destruct Hcase as [Hsame|(i & c1 & Hnth & Hsc & Hlt1 & Hbefore)];
        [now left|right].
      exists (S i), c1. simpl. split; [exact Hnth|].
      split; [exact Hsc|]. split; [exact Hlt1|].
      intros [|j] cj cl s0 Hj Hnj Hs0; simpl in Hnj.
      { injection Hnj as <- <-. congruence. }
      eapply Hbefore; eauto; lia.
Qed.

(** C5. The score of a cluster is the arithmetic mean of
    [similarity_with_siblings] over its members.  When the cluster ids are
    distinct and some cluster scores above the initial -1, the cluster
    returned has a score that no cluster exceeds, and every cluster met
    before it in the iteration scores strictly less: among the clusters of
    maximal score the first one met is returned. *)
Theorem choose_best_cluster_first_max (clusters : dict Z (list Element)) :
  NoDup (dict_keys clusters) ->
  (exists cid c s, In (cid, c) clusters /\ score c = Some s
                   /\ (-1 # 1 < s)%Q) ->
  (forall c, score c
             = np_mean (map (fun e => similarity_with_siblings similarity
                                        (Some e)) c))
  /\ exists i cid best top,
       nth_error clusters i = Some (cid, best)
       /\ _choose_best_cluster similarity clusters = Ok best
       /\ score best = Some top
       /\ (forall cj cl s, In (cj, cl) clusters -> score cl = Some s ->
                           (s <= top)%Q)
       /\ (forall j cj cl s,
             j < i -> nth_error clusters j = Some (cj, cl) ->
             score cl = Some s -> (s < top)%Q).
Proof.
  intros Hnd (cid0 & c0 & s0 & Hin0 & Hs0 & Hpos).
  split; [reflexivity|].
  destruct (choose_loop_spec clusters 0%Z (-1 # 1)%Q)
    as (arg & top & Hfold & _ & Hall & Hcase).
  destruct Hcase as [[_ ->]|(i & best & Hnth & Hsc & _ & Hbefore)].
  { exfalso. apply (Qlt_not_le _ _ Hpos). eapply Hall; eauto. }
  exists i, arg, best, top.
  split; [exact Hnth|]. split.
  - unfold _choose_best_cluster. rewrite Hfold.
    unfold dict_getitem.
    rewrite (dict_get_unique clusters arg best Hnd);
      [reflexivity|eapply nth_error_In; eauto].
  - split; [exact Hsc|]. split; [exact Hall|exact Hbefore].
Qed.

(** When the collaborator keeps its contract, scores in [0, 1], every
    non-empty cluster scores in [0, 1], hence above -1. *)
Lemma Qsum_bounds (l : list Q) :
  (forall x, In x l -> (0 <= x)%Q /\ (x <= 1)%Q) ->
  (0 <= Qsum l)%Q /\ (Qsum l <= Qint (List.length l))%Q.
Proof.
  induction l as [|x l IH]; intros H.
  - split; apply Qle_refl.
  - destruct (H x (or_introl eq_refl)) as [Hx0 Hx1].
    destruct IH as [IH0 IH1]; [intros y Hy; apply H; now right|].
    change (Qsum (x :: l)) with (x + Qsum l)%Q. split.
    + replace (0 : Q) with (0 + 0)%Q by reflexivity.
      apply Qplus_le_compat; assumption.
    + unfold Qint. simpl List.length. rewrite Nat2Z.inj_succ.
      unfold Z.succ. rewrite inject_Z_plus, Qplus_comm.
      apply Qplus_le_compat; assumption.
Qed.

Lemma np_mean_bounds (l : list Q) :
  l <> [] ->
  (forall x, In x l -> (0 <= x)%Q /\ (x <= 1)%Q) ->
  exists m, np_mean l = Some m /\ (0 <= m)%Q /\ (m <= 1)%Q.
Proof.
  intros Hne H. destruct (Qsum_bounds l H) as [H0 H1].
  destruct l as [|x l]; [congruence|].
  eexists; split; [reflexivity|].
  assert (Hpos : (0 < Qint (List.length (x :: l)))%Q).
  { unfold Qint, Qlt; simpl. lia. }
  fold (Qint (List.length (x :: l))). split.
  - apply Qle_shift_div_l; [exact Hpos|]. now rewrite Qmult_0_l.
  - apply Qle_shift_div_r; [exact Hpos|]. now rewrite Qmult_1_l.
Qed.

Lemma similarity_with_siblings_bounds (element : option Element) :
  (forall a b, (0 <= similarity a b)%Q /\ (similarity a b <= 1)%Q) ->
  (0 <= similarity_with_siblings similarity element)%Q
  /\ (similarity_with_siblings similarity element <= 1)%Q.
Proof.
  intros Hsim. unfold similarity_with_siblings.
  destruct element as [e|].
  - remember (siblings (Some e) false) as sibs eqn:Hsibs.
    rewrite (fold_left_snoc (element_similarity similarity e)).
    change ([] ++ map (element_similarity similarity e) sibs)
      with (map (element_similarity similarity e) sibs).
    destruct (map (element_similarity similarity e) sibs) as [|x l] eqn:E.
    + simpl. split; [apply Qle_refl|unfold Qle; simpl; lia].
    + destruct (np_mean_bounds (x :: l)) as (m & Hm & Hb);
        [discriminate| |rewrite Hm; exact Hb].
      intros y Hy. rewrite <- E in Hy.
      apply in_map_iff in Hy as (s & <- & _). apply Hsim.
  - simpl. split; [apply Qle_refl|unfold Qle; simpl; lia].
Qed.

Lemma cluster_score_bounds (cluster : list Element) :
  (forall a b, (0 <= similarity a b)%Q /\ (similarity a b <= 1)%Q) ->
  cluster <> [] ->
  exists s, score cluster = Some s /\ (-1 # 1 < s)%Q /\ (s <= 1)%Q.
Proof.
  intros Hsim Hne. unfold cluster_score.
  destruct (np_mean_bounds
              (map (fun e => similarity_with_siblings similarity (Some e))
                 cluster)) as (m & Hm & H0 & H1).
  - destruct cluster; [congruence|discriminate].
  - intros x Hx. apply in_map_iff in Hx as (e & <- & _).
    now apply similarity_with_siblings_bounds.
  - exists m. split; [exact Hm|]. split; [|exact H1].
    eapply Qlt_le_trans; [|exact H0]. reflexivity.
Qed.
End ChooseBest.

(** Two clusters tie at 9/10: the first one met is returned, and the
    general statement applies to them. *)
Lemma choose_best_cluster_first_max_witness :
  _choose_best_cluster sample_similarity tie_clusters = Ok plain_rows
  /\ exists i cid best top,
       nth_error tie_clusters i = Some (cid, best)
       /\ _choose_best_cluster sample_similarity tie_clusters = Ok best
       /\ cluster_score sample_similarity best = Some top
       /\ (forall cj cl s,
             In (cj, cl) tie_clusters ->
             cluster_score sample_similarity cl = Some s -> (s <= top)%Q)
       /\ (forall j cj cl s,
             j < i -> nth_error tie_clusters j = Some (cj, cl) ->
             cluster_score sample_similarity cl = Some s -> (s < top)%Q).
Proof.
  split; [vm_compute; reflexivity|].
  assert (Hnd : NoDup (dict_keys tie_clusters)).
  { repeat (constructor; [simpl; intuition discriminate|]). constructor. }
  assert (Hex : exists cid c s,
             In (cid, c) tie_clusters
             /\ cluster_score sample_similarity c = Some s
             /\ (-1 # 1 < s)%Q).
  { exists 0%Z, plain_rows. eexists.
    split; [now left|]. split; [vm_compute; reflexivity|reflexivity]. }
  exact (proj2 (choose_best_cluster_first_max sample_similarity tie_clusters
                  Hnd Hex)).
Defined.

(** ** The order of strings and prefixes *)

Lemma ascii_compare_refl (a : ascii) : Ascii.compare a a = Eq.
Proof. unfold Ascii.compare. apply N.compare_refl. Qed.

Lemma str_leb_trans (a b c : string) :
  String.leb a b = true -> String.leb b c = true -> String.leb a c = true.
Proof.
  unfold String.leb. revert b c.
  induction a as [|x a IH]; intros [|y b] [|z c]; simpl; try congruence.
  unfold Ascii.compare.
  destruct (N.compare_spec (N_of_ascii x) (N_of_ascii y)) as [Hxy|Hxy|Hxy];
    destruct (N.compare_spec (N_of_ascii y) (N_of_ascii z)) as [Hyz|Hyz|Hyz];
    try congruence.
  - rewrite Hxy, Hyz, N.compare_refl. apply IH.
  - rewrite Hxy. apply N.compare_lt_iff in Hyz. now rewrite Hyz.
  - rewrite <- Hyz. apply N.compare_lt_iff in Hxy. now rewrite Hxy.
  - assert (H : (N_of_ascii x < N_of_ascii z)%N) by (eapply N.lt_trans; eauto).
    apply N.compare_lt_iff in H. now rewrite H.
Qed.

Lemma prefix_refl (s : string) : String.prefix s s = true.
Proof.
  induction s as [|x s IH]; simpl; [reflexivity|].
  destruct (ascii_dec x x); [exact IH|congruence].
Qed.

Lemma prefix_trans (a b c : string) :
  String.prefix a b = true -> String.prefix b c = true ->
  String.prefix a c = true.
Proof.
  revert b c. induction a as [|x a IH]; intros b c; [now destruct c|].
  destruct b as [|y b]; [discriminate|].
  destruct c as [|z c]; [discriminate|]. simpl.
  destruct (ascii_dec x y) as [->|]; [|discriminate].
  destruct (ascii_dec y z) as [->|]; [|discriminate].
  apply IH.
Qed.

(** Two prefixes of one string are prefixes of one another. *)
Lemma prefix_common (a b q : string) :
  String.prefix a q = true -> String.prefix b q = true ->
  String.prefix a b = true \/ String.prefix b a = true.
Proof.
  revert b q. induction a as [|x a IH]; intros b q; [left; now destruct b|].
  destruct b as [|y b]; [right; reflexivity|].
  destruct q as [|z q]; [discriminate|]. simpl.
  destruct (ascii_dec x z) as [->|]; [|discriminate].
  destruct (ascii_dec y z) as [->|]; [|discriminate].
  destruct (ascii_dec z z); [|congruence].
  apply IH.
Qed.

Lemma prefix_leb (p s : string) :
  String.prefix p s = true -> String.leb p s = true.
Proof.
  unfold String.leb. revert s.
  induction p as [|x p IH]; intros [|y s]; simpl; try congruence.
  destruct (ascii_dec x y) as [->|]; [|discriminate].
  rewrite ascii_compare_refl. apply IH.
Qed.

Lemma prefix_nonempty (p s : string) :
  String.prefix p s = true -> str_truthy p = true -> str_truthy s = true.
Proof. destruct p, s; simpl; congruence. Qed.

(** ** Sorting selectors *)

Local Abbreviation str_le := (fun a b : string => String.leb a b = true).

Lemma sorted_insert_In (k x : string) (l : list string) :
  In x (sorted_insert k l) <-> x = k \/ In x l.
Proof.
  induction l as [|y l IH]; simpl; [intuition|].
  destruct (String.leb k y); simpl; [intuition|].
  rewrite IH. intuition.
Qed.

Lemma sorted_In (x : string) (l : list string) : In x (sorted l) <-> In x l.
Proof.
  induction l as [|k l IH]; simpl; [tauto|].
  rewrite sorted_insert_In, IH. intuition.
Qed.

Lemma sorted_insert_sorted (k : string) (l : list string) :
  StronglySorted str_le l -> StronglySorted str_le (sorted_insert k l).
Proof.
  induction l as [|y l IH]; intros Hs; simpl.
  - constructor; constructor.
  - inversion Hs as [|? ? Hl Hy]; subst.
    destruct (String.leb k y) eqn:Hk.
    + constructor; [exact Hs|]. constructor; [exact Hk|].
      eapply Forall_impl; [|exact Hy].
      intros z Hz. eapply str_leb_trans; eauto.
    + constructor; [now apply IH|].
      apply Forall_forall. intros z Hz.
      apply sorted_insert_In in Hz as [->|Hz].
      * destruct (String.leb_total y k) as [H|H]; [exact H|congruence].
      * rewrite Forall_forall in Hy. now apply Hy.
Qed.

Lemma sorted_sorted (l : list string) : StronglySorted str_le (sorted l).
Proof.
  induction l as [|k l IH]; simpl; [constructor|].
  now apply sorted_insert_sorted.
Qed.

Lemma sorted_insert_NoDup (k : string) (l : list string) :
  ~ In k l -> NoDup l -> NoDup (sorted_insert k l).
Proof.
  induction l as [|y l IH]; intros Hk Hnd; simpl.
  - constructor; [tauto|constructor].
  - destruct (String.leb k y); [now constructor|].
    inversion Hnd as [|? ? Hy Hl]; subst.
    constructor.
    + rewrite sorted_insert_In. simpl in Hk. intuition.
    + apply IH; [simpl in Hk; tauto|exact Hl].
Qed.

Lemma sorted_NoDup (l : list string) : NoDup l -> NoDup (sorted l).
Proof.
  induction l as [|k l IH]; intros Hnd; simpl; [constructor|].
  inversion Hnd as [|? ? Hk Hl]; subst.
  apply sorted_insert_NoDup; [now rewrite sorted_In|now apply IH].
Qed.

(** Filtering commutes with sorting: the sort is stable and the keys are
    compared, not their positions. *)
Lemma sorted_insert_filter (p : string -> bool) (k : string)
    (l : list string) :
  StronglySorted str_le l ->
  filter p (sorted_insert k l)
  = if p k then sorted_insert k (filter p l) else filter p l.
Proof.
  induction l as [|y l IH]; intros Hs; simpl.
  - destruct (p k); reflexivity.
  - inversion Hs as [|? ? Hl Hy]; subst.
    destruct (String.leb k y) eqn:Hk; simpl.
    + destruct (p k) eqn:Hpk; [|reflexivity].
      destruct (p y) eqn:Hpy; simpl; [now rewrite Hk|].
      destruct (filter p l) as [|z l'] eqn:E; [reflexivity|].
      simpl.
      assert (Hz : In z (filter p l)) by (rewrite E; now left).
      apply filter_In in Hz as [Hz _].
      rewrite Forall_forall in Hy.
      now rewrite (str_leb_trans k y z Hk (Hy z Hz)).
    + rewrite (IH Hl).
      destruct (p y) eqn:Hpy; destruct (p k) eqn:Hpk; simpl;
        try reflexivity.
      now rewrite Hk.
Qed.

Lemma sorted_filter (p : string -> bool) (l : list string) :
  filter p (sorted l) = sorted (filter p l).
Proof.
  induction l as [|k l IH]; simpl; [reflexivity|].
  rewrite sorted_insert_filter by apply sorted_sorted.
  rewrite IH. now destruct (p k).
Qed.

Lemma strongly_sorted_app {A : Type} (R : A -> A -> Prop) (l1 l2 : list A) :
  StronglySorted R l1 -> StronglySorted R l2 ->
  (forall x y, In x l1 -> In y l2 -> R x y) ->
  StronglySorted R (l1 ++ l2).
Proof.
  induction l1 as [|a l1 IH]; intros H1 H2 H12; simpl; [exact H2|].
  inversion H1 as [|? ? Hl Ha]; subst.
  constructor.
  - apply IH; auto. intros x y Hx Hy; apply H12; [now right|exact Hy].
  - apply Forall_app; split; [exact Ha|].
    apply Forall_forall; intros y Hy. apply H12; [now left|exact Hy].
Qed.

(** The walk of the cut sees the selectors strictly descending. *)
Lemma reversed_sorted_descending (keys : list string) :
  NoDup keys -> StronglySorted str_gt (rev (sorted keys)).
Proof.
  intros Hnd. apply sorted_NoDup in Hnd.
  pose proof (sorted_sorted keys) as Hs.
  induction (sorted keys) as [|k l IH]; simpl; [constructor|].
  inversion Hs as [|? ? Hl Hk]; subst.
  inversion Hnd as [|? ? Hnk Hndl]; subst.
  apply strongly_sorted_app.
  - now apply IH.
  - constructor; constructor.
  - intros x y Hx [<-|[]]. apply in_rev in Hx.
    rewrite Forall_forall in Hk. split; [now apply Hk|].
    intros ->. contradiction.
Qed.

(** ** The cut of the tree *)

Lemma cut_loop_dropped {A : Type} (l : list string) :
  forall (tree : dict string (list A)) (last : option string),
  fst (fold_left cut_step l (tree, last))
  = fold_left (fun t k => dict_del String.eqb t k) (dropped_keys last l) tree.
Proof.
  induction l as [|s l IH]; intros tree last; simpl; [reflexivity|].
  change (match last with
          | Some last0 =>
              str_truthy last0 && str_truthy s && startswith last0 s
          | None => false
          end) with (drops last s).
  rewrite IH. now destruct (drops last s).
Qed.

Lemma filter_absent (k : string) (l : list string) :
  ~ In k l -> filter (fun x => negb (String.eqb x k)) l = l.
Proof.
  induction l as [|y l IH]; intros Hk; simpl; [reflexivity|].
  destruct (String.eqb_spec y k) as [->|_]; simpl.
  - exfalso; apply Hk; now left.
  - rewrite IH; [reflexivity|]. intros H; apply Hk; now right.
Qed.

Lemma dict_del_keys {A : Type} (tree : dict string (list A)) (k : string) :
  NoDup (dict_keys tree) ->
  dict_keys (dict_del String.eqb tree k)
  = filter (fun x => negb (String.eqb x k)) (dict_keys tree).
Proof.
  unfold dict_keys.
  induction tree as [|[k' v] tree IH]; intros Hnd; simpl; [reflexivity|].
  inversion Hnd as [|? ? Hk Hnd']; subst.
  destruct (String.eqb_spec k' k) as [->|Hne]; simpl.
  - now rewrite filter_absent.
  - now rewrite IH.
Qed.

Lemma filter_twice {A : Type} (p q : A -> bool) (l : list A) :
  filter p (filter q l) = filter (fun x => q x && p x) l.
Proof.
  induction l as [|x l IH]; simpl; [reflexivity|].
  destruct (q x); simpl; [|exact IH].
  destruct (p x); now rewrite IH.
Qed.

Lemma dict_del_all_keys {A : Type} (dropped : list string) :
  forall tree : dict string (list A),
  NoDup (dict_keys tree) ->
  dict_keys (fold_left (fun t k => dict_del String.eqb t k) dropped tree)
  = filter (fun x => negb (selector_in dropped x)) (dict_keys tree).
Proof.
  induction dropped as [|k dropped IH]; intros tree Hnd; simpl.
  - symmetry. apply forallb_filter_id. apply forallb_forall. reflexivity.
  - rewrite IH.
    + rewrite dict_del_keys by exact Hnd.
      rewrite filter_twice. apply filter_ext. intros x.
      unfold selector_in; simpl. now rewrite negb_orb.
    + rewrite dict_del_keys by exact Hnd. now apply NoDup_filter.
Qed.

Lemma dropped_keys_In (l : list string) :
  forall last x, In x (dropped_keys last l) -> In x l.
Proof.
  induction l as [|s l IH]; intros last x; simpl; [tauto|].
  destruct (drops last s); simpl; [intros [H|H]|intros H]; eauto.
Qed.

Lemma selector_in_false (l : list string) (s : string) :
  ~ In s l -> selector_in l s = false.
Proof.
  intros H. unfold selector_in.
  destruct (existsb (String.eqb s) l) eqn:E; [|reflexivity].
  apply existsb_exists in E as (x & Hx & Heq).
  apply String.eqb_eq in Heq; subst. contradiction.
Qed.

Lemma filter_selector_cons (k : string) (dropped l : list string) :
  ~ In k l ->
  filter (fun x => negb (selector_in (k :: dropped) x)) l
  = filter (fun x => negb (selector_in dropped x)) l.
Proof.
  intros Hk. apply filter_ext_in. intros x Hx.
  unfold selector_in; simpl.
  destruct (String.eqb_spec x k) as [->|_]; [contradiction|reflexivity].
Qed.

(** The selectors that remain after the cut are the kept ones. *)
Lemma kept_keys_filter (l : list string) :
  forall last, NoDup l ->
  kept_keys last l
  = filter (fun x => negb (selector_in (dropped_keys last l) x)) l.
Proof.
  induction l as [|s l IH]; intros last Hnd; [reflexivity|].
  inversion Hnd as [|? ? Hs Hl]; subst.
  cbn [kept_keys dropped_keys]. destruct (drops last s) eqn:Hd.
  - cbn [filter].
    assert (Hin : selector_in (s :: dropped_keys (Some s) l) s = true)
      by (unfold selector_in; simpl; now rewrite String.eqb_refl).
    rewrite Hin. cbn [negb].
    rewrite filter_selector_cons by exact Hs. now apply IH.
  - cbn [filter]. rewrite selector_in_false.
    + cbn [negb]. f_equal. now apply IH.
    + intros H. apply dropped_keys_In in H. contradiction.
Qed.

(** After one cut no kept selector is a prefix of the kept selector before
    it: [p] is the selector the first walk has just left, [q] the last one
    it kept, and [p] is a prefix of [q]. *)
Lemma kept_keys_stable (r : list string) :
  forall p q,
  StronglySorted str_gt (p :: r) -> String.prefix p q = true ->
  dropped_keys (Some q) (kept_keys (Some p) r) = [].
Proof.
  induction r as [|s r IH]; intros p q Hs Hpq; simpl; [reflexivity|].
  inversion Hs as [|? ? Hr Hp]; subst.
  inversion Hp as [|? ? [Hsp Hne] _]; subst.
  destruct (str_truthy p && str_truthy s && startswith p s) eqn:Hd.
  - apply andb_prop in Hd as [_ Hd]. unfold startswith in Hd.
    apply IH; [exact Hr|]. eapply prefix_trans; eauto.
  - simpl.
    assert (Hq : str_truthy q && str_truthy s && startswith q s = false).
    { destruct (str_truthy q && str_truthy s && startswith q s) eqn:E;
        [|reflexivity].
      apply andb_prop in E as [E Hsq]. apply andb_prop in E as [_ Hts].
      unfold startswith in Hsq.
      destruct (prefix_common s p q Hsq Hpq) as [H|H].
      - rewrite Hts in Hd. unfold startswith in Hd. rewrite H in Hd.
        rewrite (prefix_nonempty s p H Hts) in Hd. discriminate.
      - exfalso. apply Hne. apply String.leb_antisym; [|exact Hsp].
        now apply prefix_leb. }
    rewrite Hq. apply IH; [exact Hr|apply prefix_refl].
Qed.

(** ** C6: the cut is idempotent *)

(** C6. For every mapping from selectors to groups (the selectors are the
    keys of a dictionary, hence distinct), cutting the tree a second time
    changes nothing: the result of the cut is a fixed point of the cut. *)
Theorem cut_tree_idempotent {A : Type} (tree : dict string (list A)) :
  NoDup (dict_keys tree) ->
  cut_tree (cut_tree tree) = cut_tree tree.
Proof.
  intros Hnd.
  set (walk := rev (sorted (dict_keys tree))).
  assert (Hcut : cut_tree tree
                 = fold_left (fun t k => dict_del String.eqb t k)
                     (dropped_keys None walk) tree).
  { unfold cut_tree. apply cut_loop_dropped. }
  assert (Hwalk : rev (sorted (dict_keys (cut_tree tree)))
                  = kept_keys None walk).
  { rewrite Hcut, dict_del_all_keys by exact Hnd.
    rewrite <- sorted_filter, <- filter_rev. fold walk.
    symmetry. apply kept_keys_filter.
    apply NoDup_rev. now apply sorted_NoDup. }
  assert (Hstable : dropped_keys None (kept_keys None walk) = []).
  { pose proof (reversed_sorted_descending (dict_keys tree) Hnd) as Hdesc.
    fold walk in Hdesc.
    destruct walk as [|s r]; [reflexivity|]. simpl.
    apply kept_keys_stable; [exact Hdesc|apply prefix_refl]. }
  unfold cut_tree at 1. rewrite cut_loop_dropped, Hwalk, Hstable.
  reflexivity.
Qed.

(** On the sample tree the cut keeps the row level and the sibling block,
    and a second cut keeps both. *)
Lemma cut_tree_idempotent_witness :
  cut_tree sample_tree
  = [("html>body>div", [4]); ("html>body>ul>li", [5])]
  /\ cut_tree (cut_tree sample_tree) = cut_tree sample_tree.
Proof.
  split; [reflexivity|].
  apply cut_tree_idempotent.
  repeat (constructor; [simpl; intuition discriminate|]).
  constructor.
Defined.

(** The walk compares a selector with the one just before it, dropped or
    not; that is the same as comparing it with the last selector kept. *)
Lemma drops_previous_or_kept (p q s : string) :
  str_gt p s -> String.prefix p q = true ->
  drops (Some p) s = drops (Some q) s.
Proof.
  intros [Hsp Hne] Hpq. unfold drops, startswith.
  destruct (str_truthy s) eqn:Hts;
    [|now rewrite !andb_false_r].
  destruct (String.prefix s p) eqn:Hp.
  - rewrite (prefix_trans s p q Hp Hpq).
    rewrite (prefix_nonempty s p Hp Hts).
    now rewrite (prefix_nonempty s q (prefix_trans s p q Hp Hpq) Hts).
  - destruct (String.prefix s q) eqn:Hq; [|now rewrite !andb_false_r].
    exfalso. destruct (prefix_common s p q Hq Hpq) as [H|H]; [congruence|].
    apply Hne. apply String.leb_antisym; [|exact Hsp].
    now apply prefix_leb.
Qed.

Lemma dropped_keys_retained_eq (r : list string) :
  forall p q,
  StronglySorted str_gt (p :: r) -> String.prefix p q = true ->
  dropped_keys (Some p) r = dropped_keys_retained (Some q) r.
Proof.
  induction r as [|s r IH]; intros p q Hs Hpq; [reflexivity|].
  inversion Hs as [|? ? Hr Hp]; subst.
  inversion Hp as [|? ? Hps _]; subst.
  cbn [dropped_keys dropped_keys_retained].
  rewrite <- (drops_previous_or_kept p q s Hps Hpq).
  destruct (drops (Some p) s) eqn:Hd.
  - f_equal. apply IH; [exact Hr|].
    unfold drops, startswith in Hd. apply andb_prop in Hd as [_ Hd].
    eapply prefix_trans; eauto.
  - apply IH; [exact Hr|apply prefix_refl].
Qed.

(** The cut of the code is the cut the specification describes, so what
    holds of one holds of the other. *)
Lemma cut_tree_retained_eq {A : Type} (tree : dict string (list A)) :
  NoDup (dict_keys tree) -> cut_tree tree = cut_tree_retained tree.
Proof.
  intros Hnd. unfold cut_tree, cut_tree_retained.
  rewrite cut_loop_dropped. f_equal.
  pose proof (reversed_sorted_descending (dict_keys tree) Hnd) as Hdesc.
  destruct (rev (sorted (dict_keys tree))) as [|s r]; [reflexivity|].
  cbn [dropped_keys dropped_keys_retained drops].
  apply dropped_keys_retained_eq; [exact Hdesc|apply prefix_refl].
Qed.

(** * Further properties of the element utilities *)

(** ** Children, siblings and parents *)

Lemma following_locs_inv mk (before after : list Node) (l : Loc) :
  In l (following_locs mk before after) ->
  exists b a,
    snd l = mk b a
    /\ rev b ++ fst l :: a = rev before ++ after
    /\ List.length before <= List.length b.
Proof.
  revert before; induction after as [|x rest IH]; intros before; simpl;
    [tauto|].
  intros [<-|H].
  - exists before, rest. simpl. auto.
  - destruct (IH _ H) as (b & a & H1 & H2 & H3). exists b, a.
    split; [exact H1|]. split.
    + rewrite H2. simpl. now rewrite <- app_assoc.
    + simpl in H3. lia.
Qed.

Lemma preceding_locs_inv mk (before after : list Node) (l : Loc) :
  In l (preceding_locs mk before after) ->
  exists b a,
    snd l = mk b a
    /\ rev b ++ fst l :: a = rev before ++ after
    /\ List.length b < List.length before.
Proof.
  revert after; induction before as [|x rest IH]; intros after; simpl;
    [tauto|].
  intros [<-|H].
  - exists rest, after. simpl. split; [reflexivity|].
    split; [now rewrite <- app_assoc|lia].
  - destruct (IH _ H) as (b & a & H1 & H2 & H3). exists b, a.
    split; [exact H1|]. split; [|lia].
    rewrite H2. simpl. now rewrite <- app_assoc.
Qed.

Lemma loc_of_inj (a b : Element) : loc_of a = loc_of b -> a = b.
Proof.
  destruct a, b; unfold loc_of, node_of; simpl. intros H.
  injection H as -> -> -> -> -> ->. reflexivity.
Qed.

(** X1. Every element that [children] returns has the element it was asked
    for as its parent. *)
Theorem children_have_parent (e c : Element) :
  In c (children (Some e) false) -> parent (Some c) = Some e.
Proof.
  simpl. rewrite elements_of_In. unfold iterchildren. intros H.
  apply following_locs_inv in H as (b & a & Hctx & Hch & _).
  unfold parent, getparent. rewrite Hctx. unfold child_context.
  f_equal. simpl in Hch. destruct e; simpl in *. now rewrite Hch.
Qed.

(** X2. A sibling that [siblings] returns has the same parent as the
    element, that parent exists, and the element is not among its own
    siblings. *)
Theorem siblings_share_parent (e s : Element) :
  In s (siblings (Some e) false) ->
  parent (Some s) = parent (Some e)
  /\ parent (Some e) <> None
  /\ s <> e.
Proof.
  simpl. rewrite in_app_iff, !elements_of_In.
  unfold itersiblings, parent, getparent. simpl.
  destruct (el_ctx e) as [|pt pa ptx ptl before up after] eqn:Hctx;
    [intros [[]|[]]|].
  intros [H|H].
  - apply preceding_locs_inv in H as (b & a & Hs & Hch & Hlen).
    simpl in Hs, Hch. rewrite Hs. split; [now rewrite Hch|].
    split; [discriminate|].
    intros ->. rewrite Hctx in Hs. injection Hs as <-. lia.
  - apply following_locs_inv in H as (b & a & Hs & Hch & Hlen).
    simpl in Hs, Hch. rewrite Hs. split.
    + rewrite Hch, <- app_assoc. reflexivity.
    + split; [discriminate|].
      intros ->. rewrite Hctx in Hs. injection Hs as <-. simpl in Hlen. lia.
Qed.

Lemma children_have_parent_witness :
  parent (Some sample_body) = Some sample_page.
Proof.
  apply children_have_parent. vm_compute. left. reflexivity.
Defined.

Lemma siblings_share_parent_witness :
  parent (Some sample_second_row) = parent (Some sample_first_row)
  /\ parent (Some sample_first_row) <> None
  /\ sample_second_row <> sample_first_row.
Proof.
  apply siblings_share_parent. vm_compute. left. reflexivity.
Defined.

Lemma elements_of_app (l1 l2 : list Loc) :
  elements_of (l1 ++ l2) = elements_of l1 ++ elements_of l2.
Proof.
  induction l1 as [|l l1 IH]; simpl; [reflexivity|].
  destruct (as_element l); simpl; now rewrite IH.
Qed.

Lemma following_locs_count mk (before after : list Node) :
  List.length (elements_of (following_locs mk before after))
  = count_elements after.
Proof.
  unfold count_elements.
  revert before; induction after as [|x rest IH]; intros before; simpl;
    [reflexivity|].
  destruct x; simpl; now rewrite IH.
Qed.

Lemma preceding_locs_count mk (before after : list Node) :
  List.length (elements_of (preceding_locs mk before after))
  = count_elements before.
Proof.
  unfold count_elements.
  revert after; induction before as [|x rest IH]; intros after; simpl;
    [reflexivity|].
  destruct x; simpl; now rewrite IH.
Qed.

(** X3. The rows the candidate filter counts: when an element has a parent,
    the number of children of the parent is the number of siblings of the
    element plus one. *)
Theorem siblings_and_children_counts (e p : Element) :
  parent (Some e) = Some p ->
  number_of_children (Some p) = number_of_siblings (Some e) + 1.
Proof.
  unfold parent, getparent, number_of_children, number_of_siblings; simpl.
  unfold itersiblings, iterchildren; simpl.
  destruct (el_ctx e) as [|pt pa ptx ptl before up after]; [discriminate|].
  intros H; injection H as <-. simpl.
  rewrite following_locs_count, length_app, preceding_locs_count,
    following_locs_count.
  unfold count_elements. rewrite filter_app, length_app, filter_rev,
    length_rev. simpl. lia.
Qed.

Lemma siblings_and_children_counts_witness :
  number_of_children (Some sample_ul)
  = number_of_siblings (Some sample_first_row) + 1.
Proof.
  apply siblings_and_children_counts. vm_compute. reflexivity.
Defined.

(** ** Descendants *)

Lemma walk_elements mk (before after : list Node) :
  elements_of (walk (fun x c => descendants_at x c) mk before after)
  = flat_map (fun c => c :: elements_of (iterdescendants c))
      (elements_of (following_locs mk before after)).
Proof.
  revert before; induction after as [|x rest IH]; intros before;
    [reflexivity|].
  cbn [walk following_locs]. destruct x as [tg at_ tx ch tl|ct tl].
  - cbn [elements_of as_element flat_map].
    rewrite elements_of_app, IH. reflexivity.
  - cbn [elements_of as_element descendants_at app]. apply IH.
Qed.

Lemma flat_map_cons_length {A : Type} (g : A -> list A) (l : list A) :
  List.length (flat_map (fun c => c :: g c) l)
  = list_sum (map (fun c => S (List.length (g c))) l).
Proof.
  induction l as [|c l IH]; simpl; [reflexivity|].
  now rewrite length_app, IH.
Qed.

Lemma descendants_cons_children (e : Element) :
  descendants (Some e) false
  = flat_map (fun c => c :: descendants (Some c) false)
      (children (Some e) false).
Proof.
  simpl. unfold iterdescendants at 1, iterchildren.
  destruct e as [tg at_ tx ch tl c]. simpl.
  apply (walk_elements (fun b a => Inside tg at_ tx tl b c a) [] ch).
Qed.

(** X4. The descendants of an element are its children in order, each one
    followed by its own descendants; so the number of descendants is the
    sum over the children of one plus their number of descendants. *)
Theorem descendants_unfold (e : Element) :
  descendants (Some e) false
  = flat_map (fun c => c :: descendants (Some c) false)
      (children (Some e) false)
  /\ number_of_descendants (Some e)
     = list_sum (map (fun c => S (number_of_descendants (Some c)))
                   (children (Some e) false)).
Proof.
  split; [apply descendants_cons_children|].
  unfold number_of_descendants. rewrite descendants_cons_children.
  apply (flat_map_cons_length (fun c => descendants (Some c) false)).
Qed.

Lemma descendants_at_parent (n : Node) :
  forall c l,
  In l (descendants_at n c) ->
  exists p, getparent l = Some p
            /\ (loc_of p = (n, c) \/ In (loc_of p) (descendants_at n c)).
Proof.
  induction n as [ct tl|tg at_ tx ch tl IH] using Node_forall_ind;
    intros c l; simpl; [tauto|].
  set (mk := fun before after => Inside tg at_ tx tl before c after).
  assert (Hgen : forall before after,
            rev before ++ after = ch -> Forall
              (fun n => forall c l, In l (descendants_at n c) ->
                 exists p, getparent l = Some p
                   /\ (loc_of p = (n, c)
                       \/ In (loc_of p) (descendants_at n c))) after ->
            In l (walk (fun x c' => descendants_at x c') mk before after) ->
            exists p, getparent l = Some p
              /\ (loc_of p = (HtmlElement tg at_ tx ch tl, c)
                  \/ In (loc_of p)
                       (walk (fun x c' => descendants_at x c') mk before
                          after))).
  { intros before after; revert before.
    induction after as [|x rest IHrest]; intros before Hch Hall; simpl;
      [tauto|].
    apply Forall_cons_iff in Hall as [Hx Hrest].
    intros [<-|H].
    - eexists; split; [reflexivity|]. left.
      unfold loc_of, node_of; simpl. now rewrite Hch.
    - apply in_app_iff in H as [H|H].
      + destruct (Hx _ _ H) as (p & Hp & [Hloc|Hin]); exists p;
          (split; [exact Hp|right]).
        * left. symmetry. exact Hloc.
        * right. apply in_app_iff. now left.
      + destruct (IHrest (x :: before)) as (p & Hp & [Hloc|Hin]);
          [simpl; rewrite <- app_assoc; exact Hch|exact Hrest|exact H| |].
        * exists p. split; [exact Hp|now left].
        * exists p. split; [exact Hp|]. right. right.
          apply in_app_iff. now right. }
  apply (Hgen [] ch eq_refl IH).
Qed.

(** A descendant has a parent, which is the element or another of its
    descendants. *)
Lemma descendants_parent (e d : Element) :
  In d (descendants (Some e) false) ->
  exists p, parent (Some d) = Some p
            /\ (p = e \/ In p (descendants (Some e) false)).
Proof.
  simpl. rewrite elements_of_In. unfold iterdescendants. intros H.
  apply descendants_at_parent in H as (p & Hp & Hcase).
  exists p. split; [exact Hp|].
  destruct Hcase as [Hloc|Hin].
  - left. now apply loc_of_inj.
  - right. now apply elements_of_In.
Qed.

Lemma parent_depth (d p : Element) :
  parent (Some d) = Some p -> depth (el_ctx d) = S (depth (el_ctx p)).
Proof.
  unfold parent, getparent; simpl.
  destruct (el_ctx d); [discriminate|].
  intros H; injection H as <-. reflexivity.
Qed.

Lemma prefix_append (a b : string) : String.prefix a (a ++ b) = true.
Proof.
  induction a as [|x a IH]; simpl; [now destruct b|].
  destruct (ascii_dec x x); [exact IH|congruence].
Qed.

Lemma str_length_append (a b : string) :
  String.length (a ++ b) = String.length a + String.length b.
Proof. induction a as [|x a IH]; simpl; [reflexivity|now rewrite IH]. Qed.

(** A string built by appending a non-empty part at every step from the
    parent extends the string of every ancestor. *)
Lemma chain_extends (f : option Element -> string) :
  (forall d p, parent (Some d) = Some p ->
               exists suffix, suffix <> EmptyString
                              /\ f (Some d) = (f (Some p) ++ suffix)%string) ->
  forall e d,
  In d (descendants (Some e) false) ->
  String.prefix (f (Some e)) (f (Some d)) = true
  /\ String.length (f (Some e)) < String.length (f (Some d)).
Proof.
  intros Hf e d.
  remember (depth (el_ctx d)) as k eqn:Hk. revert d Hk.
  induction k as [k IH] using lt_wf_ind. intros d Hk Hd.
  destruct (descendants_parent e d Hd) as (p & Hp & Hcase).
  destruct (Hf d p Hp) as (suffix & Hne & Heq).
  assert (Hlen : String.length (f (Some p)) < String.length (f (Some d))).
  { rewrite Heq, str_length_append.
    destruct suffix; [congruence|simpl; lia]. }
  destruct Hcase as [->|Hin].
  - split; [rewrite Heq; apply prefix_append|exact Hlen].
  - destruct (IH (depth (el_ctx p))) with (d := p) as [Hpre Hl];
      [rewrite Hk, (parent_depth d p Hp); lia|reflexivity|exact Hin|].
    split; [|lia].
    eapply prefix_trans; [exact Hpre|]. rewrite Heq. apply prefix_append.
Qed.

Lemma selector_step (e : Element) :
  selector (Some e)
  = match parent (Some e) with
    | Some p => (selector (Some p) ++ ">" ++ alias (Some e))%string
    | None => alias (Some e)
    end.
Proof.
  destruct (parent (Some e)) as [p|] eqn:E;
    rewrite (selector_equation_1 e);
    generalize (inspect (parent (Some e))); intros [[q|] Hq];
    try congruence.
  - assert (q = p) by congruence. subst q. reflexivity.
  - reflexivity.
Qed.

Lemma path_raw_step (e : Element) :
  path_raw (Some e)
  = match parent (Some e) with
    | Some p => (path_raw (Some p) ++ "/" ++ el_tag e)%string
    | None => el_tag e
    end.
Proof.
  destruct (parent (Some e)) as [p|] eqn:E;
    rewrite (path_raw_equation_1 e);
    generalize (inspect (parent (Some e))); intros [[q|] Hq];
    try congruence.
  - assert (q = p) by congruence. subst q. reflexivity.
  - reflexivity.
Qed.

(** X5. The selector of an element is a proper prefix of the selector of
    each of its descendants: an ancestor path is a string prefix, which is
    what the cut of the tree tests. *)
Theorem selector_extends_ancestor (e d : Element) :
  In d (descendants (Some e) false) ->
  String.prefix (selector (Some e)) (selector (Some d)) = true
  /\ selector (Some e) <> selector (Some d).
Proof.
  intros Hd.
  destruct (chain_extends selector) with (e := e) (d := d) as [Hpre Hlen];
    [|exact Hd|].
  - intros x p Hp. rewrite (selector_step x), Hp.
    eexists; split; [|reflexivity]. discriminate.
  - split; [exact Hpre|]. intros Heq. rewrite Heq in Hlen. lia.
Qed.

(** X6. Likewise the raw tag path of an element is a proper prefix of the
    raw tag path of each of its descendants. *)
Theorem path_raw_extends_ancestor (e d : Element) :
  In d (descendants (Some e) false) ->
  String.prefix (path_raw (Some e)) (path_raw (Some d)) = true
  /\ path_raw (Some e) <> path_raw (Some d).
Proof.
  intros Hd.
  destruct (chain_extends path_raw) with (e := e) (d := d) as [Hpre Hlen];
    [|exact Hd|].
  - intros x p Hp. rewrite (path_raw_step x), Hp.
    eexists; split; [|reflexivity]. discriminate.
  - split; [exact Hpre|]. intros Heq. rewrite Heq in Hlen. lia.
Qed.

Lemma selector_extends_ancestor_witness :
  String.prefix (selector (Some sample_body))
    (selector (Some sample_first_link)) = true
  /\ selector (Some sample_body) <> selector (Some sample_first_link).
Proof.
  apply selector_extends_ancestor. vm_compute. do 2 right. left. reflexivity.
Defined.

Lemma path_raw_extends_ancestor_witness :
  String.prefix (path_raw (Some sample_body))
    (path_raw (Some sample_first_link)) = true
  /\ path_raw (Some sample_body) <> path_raw (Some sample_first_link).
Proof.
  apply path_raw_extends_ancestor. vm_compute. do 2 right. left. reflexivity.
Defined.

(** ** Counts and densities *)

Lemma re_sub_whitespace_app (a b : string) :
  re_sub_whitespace (a ++ b)
  = (re_sub_whitespace a ++ re_sub_whitespace b)%string.
Proof.
  induction a as [|c a IH]; simpl; [reflexivity|].
  destruct (is_whitespace c); simpl; now rewrite IH.
Qed.

Lemma text_weight_app (l1 l2 : list string) :
  text_weight (l1 ++ l2) = text_weight l1 + text_weight l2.
Proof. unfold text_weight. now rewrite map_app, list_sum_app. Qed.

Lemma text_weight_join (l : list string) :
  String.length (re_sub_whitespace (str_join l)) = text_weight l.
Proof.
  unfold text_weight.
  induction l as [|s l IH]; simpl; [reflexivity|].
  now rewrite re_sub_whitespace_app, str_length_append, IH.
Qed.

Lemma text_weight_flat_map_le {A : Type} (f g : A -> list string)
    (l : list A) :
  Forall (fun x => text_weight (f x) <= text_weight (g x)) l ->
  text_weight (flat_map f l) <= text_weight (flat_map g l).
Proof.
  induction 1 as [|x l Hx _ IH]; simpl; [lia|].
  rewrite !text_weight_app. lia.
Qed.

(** The linked text is part of the text. *)
Lemma a_text_nodes_weight (n : Node) :
  forall inside,
  text_weight (a_text_nodes inside n) <= text_weight (text_nodes n).
Proof.
  induction n as [ct tl|tg at_ tx ch tl IH] using Node_forall_ind;
    intros inside; simpl; [lia|].
  change (tx :: flat_map (fun c => text_nodes c ++ [node_tail c]) ch)
    with ([tx] ++ flat_map (fun c => text_nodes c ++ [node_tail c]) ch).
  rewrite !text_weight_app.
  assert (Hhead : text_weight
                    (if inside || String.eqb tg "a" then [tx] else [])
                  <= text_weight [tx])
    by (destruct (inside || String.eqb tg "a"); unfold text_weight; simpl;
        lia).
  assert (Htail :
    text_weight
      (flat_map (fun c => a_text_nodes (inside || String.eqb tg "a") c
                          ++ (if inside || String.eqb tg "a"
                              then [node_tail c] else [])) ch)
    <= text_weight (flat_map (fun c => text_nodes c ++ [node_tail c]) ch)).
  { apply text_weight_flat_map_le.
    eapply Forall_impl; [|exact IH]. intros c Hc. simpl in Hc.
    rewrite !text_weight_app.
    specialize (Hc (inside || String.eqb tg "a")).
    destruct (inside || String.eqb tg "a"); unfold text_weight in *;
      simpl in *; lia. }
  lia.
Qed.

Lemma list_ascii_length (s : string) :
  List.length (list_ascii_of_string s) = String.length s.
Proof. induction s as [|c s IH]; simpl; [reflexivity|now rewrite IH]. Qed.

Lemma a_descendants_le (e : Element) :
  number_of_a_descendants (Some e) <= number_of_descendants (Some e).
Proof.
  unfold number_of_a_descendants, number_of_descendants, xpath_descendants.
  apply List.filter_length_le.
Qed.

Lemma a_char_le (e : Element) :
  number_of_a_char (Some e) <= String.length (element_text e).
Proof.
  unfold number_of_a_char, element_text, xpath_a_text, xpath_text.
  rewrite !text_weight_join. destruct e as [tg at_ tx ch tl c]; simpl.
  change (tx :: flat_map (fun c => text_nodes c ++ [node_tail c]) ch)
    with ([tx] ++ flat_map (fun c => text_nodes c ++ [node_tail c]) ch).
  rewrite text_weight_app.
  assert (H : text_weight (flat_map (a_text_nodes false) ch)
              <= text_weight
                   (flat_map (fun c => text_nodes c ++ [node_tail c]) ch)).
  { apply text_weight_flat_map_le. apply Forall_forall. intros n _.
    rewrite text_weight_app.
    pose proof (a_text_nodes_weight n false). lia. }
  lia.
Qed.

Lemma flat_map_cons_ge {A : Type} (g : A -> list A) (l : list A) :
  List.length l <= List.length (flat_map (fun c => c :: g c) l).
Proof.
  induction l as [|c l IH]; simpl; [lia|].
  rewrite length_app. lia.
Qed.

(** X7. An element has at most as many [a] descendants, [p] descendants and
    children as it has descendants. *)
Theorem descendant_counts_bounded (e : Element) :
  number_of_a_descendants (Some e) <= number_of_descendants (Some e)
  /\ number_of_p_descendants (Some e) <= number_of_descendants (Some e)
  /\ number_of_children (Some e) <= number_of_descendants (Some e).
Proof.
  split; [apply a_descendants_le|].
  unfold number_of_p_descendants, number_of_descendants, number_of_children,
    xpath_descendants.
  split; [apply List.filter_length_le|].
  rewrite descendants_cons_children.
  apply (flat_map_cons_ge (fun c => descendants (Some c) false)).
Qed.

(** X8. On an element that is present [number_of_char] returns the length of
    its text, and neither the number of linked characters nor the number of
    punctuation characters exceeds it. *)
Theorem char_counts_bounded (e : Element) :
  number_of_char (Some e) = Ok (String.length (element_text e))
  /\ number_of_a_char (Some e) <= String.length (element_text e)
  /\ number_of_punctuation (Some e) <= String.length (element_text e).
Proof.
  split; [reflexivity|]. split; [apply a_char_le|].
  unfold number_of_punctuation, element_text.
  rewrite <- list_ascii_length. apply List.filter_length_le.
Qed.

Lemma Qint_le (a b : nat) : a <= b -> (Qint a <= Qint b)%Q.
Proof. intros H. unfold Qint. rewrite <- Zle_Qle. lia. Qed.

Lemma Qint_diff_nonneg (a b : nat) : a <= b -> (0 <= Qint b - Qint a)%Q.
Proof.
  intros H. apply Qint_le in H.
  apply (Qplus_le_l _ _ (Qint a)). ring_simplify. exact H.
Qed.

Lemma Qnonneg_nonzero_pos (q : Q) :
  (0 <= q)%Q -> Qeq_bool q (0 # 1) = false -> (0 < q)%Q.
Proof.
  intros Hq Hne. apply Qle_lt_or_eq in Hq as [Hq|Hq]; [exact Hq|].
  symmetry in Hq. apply Qeq_bool_iff in Hq. congruence.
Qed.

(** X9. On an element that is present [density_of_text] returns a number
    that is not negative, and returns 0 when every descendant is a link
    (the case the guard on the denominator covers). *)
Theorem density_of_text_nonnegative (e : Element) :
  exists q,
    density_of_text (Some e) = Ok q
    /\ (0 <= q)%Q
    /\ (number_of_descendants (Some e) = number_of_a_descendants (Some e) ->
        q = (0 # 1)%Q).
Proof.
  unfold density_of_text, attr, bind.
  change (number_of_char (Some e)) with (Ok (String.length (element_text e))).
  pose proof (Qint_diff_nonneg _ _ (a_descendants_le e)) as Hden.
  pose proof (Qint_diff_nonneg _ _ (a_char_le e)) as Hnum.
  destruct (Qeq_bool (Qint (number_of_descendants (Some e))
                      - Qint (number_of_a_descendants (Some e))) (0 # 1))
    eqn:Hz.
  - eexists; split; [reflexivity|]. split; [apply Qle_refl|reflexivity].
  - eexists; split; [reflexivity|]. split.
    + apply Qle_shift_div_l; [now apply Qnonneg_nonzero_pos|].
      rewrite Qmult_0_l. exact Hnum.
    + intros Heq. rewrite Heq in Hz. exfalso.
      assert (H0 : Qeq_bool (Qint (number_of_a_descendants (Some e))
                             - Qint (number_of_a_descendants (Some e)))
                     (0 # 1) = true)
        by (apply Qeq_bool_iff; ring).
      congruence.
Qed.

(** X10. On an element that is present [density_of_punctuation] returns a
    number that is strictly positive: the quotient is not negative and a
    zero is replaced by 1. *)
Theorem density_of_punctuation_positive (e : Element) :
  exists q, density_of_punctuation (Some e) = Ok q /\ (0 < q)%Q.
Proof.
  unfold density_of_punctuation, attr, bind.
  change (number_of_char (Some e)) with (Ok (String.length (element_text e))).
  pose proof (Qint_diff_nonneg _ _ (a_char_le e)) as Hnum.
  set (result := ((Qint (String.length (element_text e))
                   - Qint (number_of_a_char (Some e)))
                  / (Qint (number_of_punctuation (Some e)) + (1 # 1)))%Q).
  assert (Hres : (0 <= result)%Q).
  { unfold result. apply Qle_shift_div_l.
    - assert (H : (0 <= Qint (number_of_punctuation (Some e)))%Q)
        by (unfold Qint; change 0%Q with (inject_Z 0);
            rewrite <- Zle_Qle; lia).
      apply (Qlt_le_trans _ (0 + (1 # 1))); [reflexivity|].
      apply Qplus_le_l. exact H.
    - rewrite Qmult_0_l. exact Hnum. }
  exists (if Qeq_bool result (0 # 1) then (1 # 1)%Q else result).
  split; [reflexivity|].
  destruct (Qeq_bool result (0 # 1)) eqn:Hz; [reflexivity|].
  now apply Qnonneg_nonzero_pos.
Qed.

(** X11. On an element that is present [text] is a string without any
    whitespace character, and [number_of_char] is its length. *)
Theorem text_without_whitespace (e : Element) :
  exists s,
    text (Some e) = PyStr s
    /\ number_of_char (Some e) = Ok (String.length s)
    /\ (forall c, In c (list_ascii_of_string s) -> is_whitespace c = false)
    /\ re_sub_whitespace s = s.
Proof.
  exists (element_text e). split; [reflexivity|]. split; [reflexivity|].
  split.
  - intros c. apply re_sub_whitespace_clean.
  - unfold element_text. generalize (str_join (xpath_text e)) as s.
    induction s as [|c s IH]; simpl; [reflexivity|].
    destruct (is_whitespace c) eqn:Hc; [exact IH|].
    simpl. rewrite Hc. now rewrite IH.
Qed.

Section SimilarityRange.
Variable similarity : string -> string -> Q.

(** X12. When the string similarity stays between 0 and 1, so does
    [similarity_with_siblings]; and it is 0 for an element without
    siblings, whatever the similarity. *)
Theorem similarity_with_siblings_unit (element : option Element) :
  (forall a b, (0 <= similarity a b)%Q /\ (similarity a b <= 1)%Q) ->
  (0 <= similarity_with_siblings similarity element)%Q
  /\ (similarity_with_siblings similarity element <= 1)%Q
  /\ (number_of_siblings element = 0 ->
      similarity_with_siblings similarity element = (0 # 1)%Q).
Proof.
  intros Hsim.
  destruct (similarity_with_siblings_bounds similarity element Hsim)
    as [H0 H1].
  split; [exact H0|]. split; [exact H1|].
  intros Hnone. unfold similarity_with_siblings.
  destruct element as [e|]; [|reflexivity].
  unfold number_of_siblings in Hnone.
  destruct (siblings (Some e) false); [reflexivity|discriminate].
Qed.
End SimilarityRange.

Lemma sample_similarity_range (a b : string) :
  (0 <= sample_similarity a b)%Q /\ (sample_similarity a b <= 1)%Q.
Proof.
  unfold sample_similarity.
  destruct a as [|x a], b as [|y b]; try (split; unfold Qle; simpl; lia).
  destruct (Ascii.eqb x y); split; unfold Qle; simpl; lia.
Qed.

Lemma similarity_with_siblings_unit_witness :
  (0 <= similarity_with_siblings sample_similarity
          (Some sample_first_row))%Q
  /\ (similarity_with_siblings sample_similarity (Some sample_first_row)
      <= 1)%Q.
Proof.
  destruct (similarity_with_siblings_unit sample_similarity
              (Some sample_first_row) sample_similarity_range)
    as (H0 & H1 & _).
  split; [exact H0|exact H1].
Defined.

(** * Further properties of the list extractor *)

(** ** Grouping with [defaultdict(list)] *)

Lemma append_loop_group {A : Type} (key_of : A -> string) (l : list A)
    (acc : dict string (list A)) (key : string) :
  group_of (fold_left (fun t x => defaultdict_append t (key_of x) x) l acc)
    key
  = group_of acc key ++ filter (fun x => String.eqb (key_of x) key) l.
Proof.
  revert acc; induction l as [|x l IH]; intros acc; simpl.
  - now rewrite app_nil_r.
  - rewrite IH, group_of_append.
    destruct (String.eqb (key_of x) key); [|reflexivity].
    now rewrite <- app_assoc.
Qed.

Lemma append_NoDup {A : Type} (tree : dict string (list A)) (k : string)
    (x : A) :
  NoDup (dict_keys tree) -> NoDup (dict_keys (defaultdict_append tree k x)).
Proof.
  unfold dict_keys.
  induction tree as [|[k' v] tree IH]; intros Hnd; simpl.
  - constructor; [tauto|constructor].
  - inversion Hnd as [|? ? Hk Hnd']; subst.
    destruct (String.eqb k' k) eqn:E; simpl; [now constructor|].
    constructor; [|now apply IH].
    intros Hin. apply (append_keys tree k k' x) in Hin as [Hin|Hin].
    + now apply Hk.
    + apply String.eqb_neq in E. congruence.
Qed.

Lemma append_nonempty {A : Type} (tree : dict string (list A)) (k : string)
    (x : A) :
  Forall (fun kv => snd kv <> []) tree ->
  Forall (fun kv => snd kv <> []) (defaultdict_append tree k x).
Proof.
  induction tree as [|[k' v] tree IH]; intros H; simpl.
  - constructor; [discriminate|constructor].
  - apply Forall_cons_iff in H as [Hv Ht].
    destruct (String.eqb k' k); constructor; auto.
    simpl. destruct v; discriminate.
Qed.

Lemma append_loop_invariant {A B : Type} (key_of : A -> string)
    (val_of : A -> B) (l : list A) (acc : dict string (list B)) :
  NoDup (dict_keys acc) -> Forall (fun kv => snd kv <> []) acc ->
  NoDup (dict_keys
           (fold_left
              (fun t x => defaultdict_append t (key_of x) (val_of x)) l acc))
  /\ Forall (fun kv => snd kv <> [])
       (fold_left
          (fun t x => defaultdict_append t (key_of x) (val_of x)) l acc).
Proof.
  revert acc; induction l as [|x l IH]; intros acc Hnd Hne; simpl; [auto|].
  apply IH; [now apply append_NoDup|now apply append_nonempty].
Qed.

Lemma fold_left_filter {A B : Type} (p : A -> bool) (f : B -> A -> B)
    (l : list A) (acc : B) :
  fold_left (fun t x => if p x then f t x else t) l acc
  = fold_left f (filter p l) acc.
Proof.
  revert acc; induction l as [|x l IH]; intros acc; simpl; [reflexivity|].
  destruct (p x); simpl; apply IH.
Qed.

(** X13. On an element that is present [a_descendants_group] returns a
    dictionary with distinct keys and no empty group, in which the group of
    a key holds, in document order, exactly the [a] descendants whose raw
    tag path is that key. *)
Theorem a_descendants_group_lookup (e : Element) :
  exists groups,
    a_descendants_group (Some e) = Ok groups
    /\ NoDup (dict_keys groups)
    /\ Forall (fun kv => snd kv <> []) groups
    /\ forall key,
         group_of groups key
         = filter (fun d => String.eqb (path_raw (Some d)) key)
             (a_descendants (Some e)).
Proof.
  unfold a_descendants_group, attr, bind.
  eexists; split; [reflexivity|].
  destruct (append_loop_invariant (fun d => path_raw (Some d))
              (fun d : Element => d) (a_descendants (Some e)) [])
    as [Hnd Hne]; [constructor|constructor|].
  split; [exact Hnd|]. split; [exact Hne|].
  intros key.
  apply (append_loop_group (fun d => path_raw (Some d))
           (a_descendants (Some e)) [] key).
Qed.

Section CandidateGroups.
Variable similarity : string -> string -> Q.
Variables group_min group_max : Element -> Q.

(** X14. The tree the candidate loop builds has distinct selectors and no
    empty group, and the group of a selector lists, in document order, the
    body descendants that pass the filter and whose parent has that
    selector. *)
Theorem group_candidates_tree (self : ListExtractor)
    (element : option Element) :
  NoDup (dict_keys (group_candidates similarity group_min group_max self
                      element))
  /\ Forall (fun kv => snd kv <> [])
       (group_candidates similarity group_min group_max self element)
  /\ forall key,
       group_of (group_candidates similarity group_min group_max self
                   element) key
       = filter (fun d => is_candidate similarity group_min group_max self d
                          && String.eqb (parent_selector d) key)
           (descendants_of_body element).
Proof.
  unfold group_candidates.
  rewrite (fold_left_filter
             (is_candidate similarity group_min group_max self)
             (fun t d => defaultdict_append t (parent_selector d) d)).
  destruct (append_loop_invariant parent_selector (fun d : Element => d)
              (filter (is_candidate similarity group_min group_max self)
                 (descendants_of_body element)) [])
    as [Hnd Hne]; [constructor|constructor|].
  split; [exact Hnd|]. split; [exact Hne|].
  intros key.
  rewrite (append_loop_group parent_selector _ [] key). simpl.
  apply filter_twice.
Qed.
End CandidateGroups.

(** ** What the cut removes *)

Lemma dict_del_In {A : Type} (tree : dict string (list A)) (k : string)
    (kv : string * list A) :
  NoDup (dict_keys tree) ->
  In kv (dict_del String.eqb tree k) <-> In kv tree /\ fst kv <> k.
Proof.
  unfold dict_keys.
  induction tree as [|[k' v] tree IH]; intros Hnd; simpl; [tauto|].
  inversion Hnd as [|? ? Hk Hnd']; subst.
  destruct (String.eqb_spec k' k) as [->|Hne].
  - split.
    + intros Hin. split; [now right|].
      intros Heq. apply Hk. rewrite <- Heq. now apply in_map.
    + intros [[<-|Hin] Hneq]; [simpl in Hneq; congruence|exact Hin].
  - simpl. rewrite (IH Hnd'). split.
    + intros [<-|[Hin Hneq]]; [split; [now left|exact Hne]|].
      split; [now right|exact Hneq].
    + intros [[Heq|Hin] Hneq]; [now left|right; now split].
Qed.

Lemma dict_del_all_In {A : Type} (dropped : list string) :
  forall (tree : dict string (list A)) (kv : string * list A),
  NoDup (dict_keys tree) ->
  In kv (fold_left (fun t k => dict_del String.eqb t k) dropped tree)
  <-> In kv tree /\ ~ In (fst kv) dropped.
Proof.
  induction dropped as [|k dropped IH]; intros tree kv Hnd; simpl;
    [tauto|].
  rewrite IH.
  - rewrite (dict_del_In tree k kv Hnd). intuition congruence.
  - rewrite dict_del_keys by exact Hnd. now apply NoDup_filter.
Qed.

Lemma with_last_tail (last : option string) (s : string) (r : list string) :
  StronglySorted str_gt (with_last last (s :: r)) ->
  StronglySorted str_gt (s :: r).
Proof.
  destruct last; simpl; [|auto]. intros H. now inversion H.
Qed.

(** A string between a prefix of [p] and [p] has that prefix too. *)
Lemma prefix_between (k s p : string) :
  String.leb k s = true -> String.leb s p = true ->
  String.prefix k p = true -> String.prefix k s = true.
Proof.
  unfold String.leb. revert s p.
  induction k as [|x k IH]; intros s p; [now destruct s|].
  destruct p as [|z p]; [discriminate|].
  destruct s as [|y s]; [discriminate|]. simpl.
  destruct (ascii_dec x z) as [->|]; [|discriminate].
  unfold Ascii.compare.
  destruct (N.compare_spec (N_of_ascii z) (N_of_ascii y)) as [Hzy|Hzy|Hzy];
    try discriminate.
  - assert (z = y) as ->.
    { rewrite <- (ascii_N_embedding z), <- (ascii_N_embedding y).
      now rewrite Hzy. }
    rewrite N.compare_refl. destruct (ascii_dec y y); [|congruence].
    apply IH.
  - intros _. apply N.compare_gt_iff in Hzy. rewrite Hzy. discriminate.
Qed.

Lemma dropped_keys_sound (k : string) (l : list string) :
  forall last,
  StronglySorted str_gt (with_last last l) ->
  In k (dropped_keys last l) ->
  In k l /\ str_truthy k = true
  /\ exists k', In k' (with_last last l) /\ k' <> k
                /\ String.prefix k k' = true.
Proof.
  induction l as [|s r IH]; intros last Hs; simpl; [tauto|].
  assert (Hrest : In k (dropped_keys (Some s) r) ->
            In k (s :: r) /\ str_truthy k = true
            /\ exists k', In k' (with_last last (s :: r)) /\ k' <> k
                          /\ String.prefix k k' = true).
  { intros H. destruct (IH (Some s) (with_last_tail last s r Hs) H)
      as (Hin & Ht & k' & Hk' & Hne & Hp).
    split; [now right|]. split; [exact Ht|].
    exists k'. split; [|now split].
    destruct last; simpl in *; tauto. }
  destruct (drops last s) eqn:Hd; [|exact Hrest].
  intros [<-|H]; [|now apply Hrest].
  destruct last as [p|]; [|discriminate]. simpl in Hd.
  apply andb_prop in Hd as [Hd Hp]. apply andb_prop in Hd as [_ Ht].
  split; [now left|]. split; [exact Ht|].
  exists p. split; [now left|]. split; [|exact Hp].
  simpl in Hs. inversion Hs as [|? ? _ Hall]; subst.
  apply Forall_inv in Hall. now destruct Hall.
Qed.

Lemma dropped_keys_complete (k : string) (l : list string) :
  forall last,
  StronglySorted str_gt (with_last last l) ->
  In k l -> str_truthy k = true ->
  (exists k', In k' (with_last last l) /\ k' <> k
              /\ String.prefix k k' = true) ->
  In k (dropped_keys last l).
Proof.
  induction l as [|s r IH]; intros last Hs Hin Ht (k' & Hk' & Hne & Hp);
    [destruct Hin|].
  pose proof (with_last_tail last s r Hs) as Hsr.
  inversion Hsr as [|? ? Hr Hall]; subst.
  rewrite Forall_forall in Hall.
  cbn [dropped_keys].
  destruct Hin as [->|Hin].
  - assert (Hlast : last = Some k').
    { destruct last as [p|]; simpl in Hk'.
      - destruct Hk' as [->|[Heq|Hk']]; [reflexivity|congruence|].
        exfalso. destruct (Hall k' Hk') as [Hle _]. apply Hne.
        apply String.leb_antisym; [exact Hle|now apply prefix_leb].
      - destruct Hk' as [Heq|Hk']; [congruence|].
        exfalso. destruct (Hall k' Hk') as [Hle _]. apply Hne.
        apply String.leb_antisym; [exact Hle|now apply prefix_leb]. }
    subst last. simpl. unfold startswith.
    rewrite Hp, Ht, (prefix_nonempty k k' Hp Ht). simpl. now left.
  - assert (Hgoal : In k (dropped_keys (Some s) r)).
    { apply IH; [exact Hsr|exact Hin|exact Ht|].
      destruct (Hall k Hin) as [Hks Hsk].
      assert (Hcase : In k' (s :: r) \/ (last = Some k' /\ ~ In k' (s :: r))).
      { destruct (in_dec string_dec k' (s :: r)) as [H|H]; [now left|].
        right. split; [|exact H].
        destruct last as [p|]; simpl in Hk';
          [destruct Hk' as [->|Hk']; [reflexivity|]|];
          exfalso; exact (H Hk'). }
      destruct Hcase as [H|[-> _]].
      - exists k'. simpl. auto.
      - exists s. split; [now left|]. split; [congruence|].
        simpl in Hs. inversion Hs as [|? ? _ Hp']; subst.
        apply Forall_inv in Hp'. destruct Hp' as [Hsp _].
        exact (prefix_between k s k' Hks Hsp Hp). }
    destruct (drops last s); [now right|exact Hgoal].
Qed.

(** X15. What the cut removes: for a tree with distinct selectors, an entry
    survives the cut exactly when its selector is empty or no other
    selector of the tree starts with it; surviving groups are unchanged
    and nothing is added. *)
Theorem cut_tree_survivors {A : Type} (tree : dict string (list A))
    (k : string) (g : list A) :
  NoDup (dict_keys tree) ->
  In (k, g) (cut_tree tree)
  <-> In (k, g) tree
      /\ (k = EmptyString
          \/ forall k', In k' (dict_keys tree) ->
                        String.prefix k k' = true -> k' = k).
Proof.
  intros Hnd. unfold cut_tree. rewrite cut_loop_dropped.
  rewrite (dict_del_all_In _ tree (k, g) Hnd). simpl.
  pose proof (reversed_sorted_descending (dict_keys tree) Hnd) as Hdesc.
  assert (Hwalk : forall x, In x (rev (sorted (dict_keys tree)))
                            <-> In x (dict_keys tree)).
  { intros x. rewrite <- in_rev. apply sorted_In. }
  split; intros [Hin H]; (split; [exact Hin|]).
  - destruct k as [|c k]; [now left|right].
    intros k' Hk' Hp. destruct (string_dec k' (String c k)) as [|Hne];
      [assumption|]. exfalso. apply H.
    apply (dropped_keys_complete (String c k) _ None Hdesc).
    + apply Hwalk. change (String c k) with (fst (String c k, g)).
      now apply in_map.
    + reflexivity.
    + exists k'. split; [now apply Hwalk|]. split; assumption.
  - intros Hd.
    apply (dropped_keys_sound k _ None Hdesc) in Hd
      as (_ & Ht & k' & Hk' & Hne & Hp).
    destruct H as [->|H]; [discriminate|].
    apply Hne. apply H; [now apply Hwalk|exact Hp].
Qed.

Lemma cut_tree_survivors_witness :
  In ("html>body>div", [4]) (cut_tree sample_tree)
  <-> In ("html>body>div", [4]) sample_tree
      /\ ("html>body>div" = EmptyString
          \/ forall k', In k' (dict_keys sample_tree) ->
                        String.prefix "html>body>div" k' = true ->
                        k' = "html>body>div").
Proof.
  apply cut_tree_survivors.
  repeat (constructor; [simpl; intuition discriminate|]).
  constructor.
Defined.

(** ** The best tag path *)

(** The loop of [max] from the pair [(kb, mb)]: as for the clusters, the
    final value bounds every number met and the final item is the first
    one that reaches it. *)
Lemma max_loop_spec (items : list (string * float)) :
  forall (kb : string) (mb : Q),
  exists (k' : string) (m' : Q),
    fold_left
      (fun best item => if float_gt (snd item) (snd best) then item else best)
      items (kb, Some mb) = (k', Some m')
    /\ (mb <= m')%Q
    /\ (forall k q, In (k, Some q) items -> (q <= m')%Q)
    /\ ((k' = kb /\ m' = mb)
        \/ exists i,
             nth_error items i = Some (k', Some m')
             /\ (mb < m')%Q
             /\ forall j k q,
                  j < i -> nth_error items j = Some (k, Some q) ->
                  (q < m')%Q).
Proof.
  induction items as [|[k v] items IH]; intros kb mb.
  - exists kb, mb. simpl. split; [reflexivity|]. split; [apply Qle_refl|].
    split; [intros ? ? []|now left].
  - simpl. destruct v as [q|]; simpl.
    + destruct (Qlt_bool mb q) eqn:Hlt.
      * apply Qlt_bool_true in Hlt.
        destruct (IH k q) as (k' & m' & Hfold & Hle & Hall & Hcase).
        exists k', m'. split; [exact Hfold|].
        split; [apply Qlt_le_weak; eapply Qlt_le_trans; eauto|].
        split.
        { intros k0 q0 [Heq|Hin].
          - injection Heq as <- <-. exact Hle.
          - eapply Hall; eauto. }
        right. destruct Hcase as [[-> ->]|(i & Hnth & Hlt1 & Hbefore)].
        { exists 0. simpl. split; [reflexivity|]. split; [exact Hlt|].
          intros j ? ? Hj; lia. }
        exists (S i). simpl. split; [exact Hnth|].
        split; [eapply Qlt_trans; eauto|].
        intros [|j] k0 q0 Hj Hnj; simpl in Hnj.
        { injection Hnj as <- <-. exact Hlt1. }
        eapply Hbefore; eauto; lia.
      * apply Qlt_bool_false in Hlt.
        destruct (IH kb mb) as (k' & m' & Hfold & Hle & Hall & Hcase).
        exists k', m'. split; [exact Hfold|]. split; [exact Hle|].
        split.
        { intros k0 q0 [Heq|Hin].
          - injection Heq as <- <-. eapply Qle_trans; eauto.
          - eapply Hall; eauto. }
        destruct Hcase as [Hsame|(i & Hnth & Hlt1 & Hbefore)];
          [now left|right].
        exists (S i). simpl. split; [exact Hnth|]. split; [exact Hlt1|].
        intros [|j] k0 q0 Hj Hnj; simpl in Hnj.
        { injection Hnj as <- <-. eapply Qle_lt_trans; eauto. }
        eapply Hbefore; eauto; lia.
    + destruct (IH kb mb) as (k' & m' & Hfold & Hle & Hall & Hcase).
      exists k', m'. split; [exact Hfold|]. split; [exact Hle|].
      split.
      { intros k0 q0 [Heq|Hin]; [discriminate|eapply Hall; eauto]. }
      destruct Hcase as [Hsame|(i & Hnth & Hlt1 & Hbefore)];
        [now left|right].
      exists (S i). simpl. split; [exact Hnth|]. split; [exact Hlt1|].
      intros [|j] k0 q0 Hj Hnj; simpl in Hnj; [discriminate|].
      eapply Hbefore; eauto; lia.
Qed.

Section BestTagPath.
Variable np_exp : Q -> Q.
Variable sqrt_two_pi : Q.
Variable self : ListExtractor.

Local Abbreviation averages :=
  (probabilities_of_title_avg np_exp sqrt_two_pi self).

Lemma averages_are_numbers (cluster : list Element) (kv : string * float) :
  In kv (averages cluster) -> exists m, snd kv = Some m.
Proof.
  unfold probabilities_of_title_avg, probabilities_of_title.
  rewrite (fold_left_nested _ linked_descendants).
  destruct (append_loop_invariant tag_path
              (fun d => _probability_of_title_with_length np_exp sqrt_two_pi
                          self (String.length (element_text d)))
              (flat_map linked_descendants cluster) [])
    as [_ Hne]; [constructor|constructor|].
  intros Hin. apply in_map_iff in Hin as ([k v] & <- & Hin).
  rewrite Forall_forall in Hne. specialize (Hne _ Hin). simpl in *.
  destruct v; [congruence|]. eexists; reflexivity.
Qed.

(** X16. When the cluster has a linked descendant, every tag path has a
    numeric mean probability, and the best tag path is the first tag path,
    in order of first appearance, whose mean is maximal: no mean exceeds
    it and every tag path before it has a strictly smaller mean. *)
Theorem best_tag_path_first_max (cluster : list Element) :
  flat_map linked_descendants cluster <> [] ->
  exists i best top,
    nth_error (averages cluster) i = Some (best, Some top)
    /\ best_tag_path np_exp sqrt_two_pi self cluster = Ok best
    /\ (forall k m, In (k, Some m) (averages cluster) -> (m <= top)%Q)
    /\ (forall j k m,
          j < i -> nth_error (averages cluster) j = Some (k, Some m) ->
          (m < top)%Q)
    /\ (forall kv, In kv (averages cluster) -> exists m, snd kv = Some m).
Proof.
  intros Hne.
  assert (Hsome : averages cluster <> []).
  { destruct (best_tag_path_present np_exp sqrt_two_pi self cluster Hne)
      as (b & Hb & _).
    intros Hnil. unfold best_tag_path in Hb.
    change (map (fun kv => (fst kv, np_mean (snd kv)))
              (probabilities_of_title np_exp sqrt_two_pi self cluster))
      with (averages cluster) in Hb.
    rewrite Hnil in Hb. discriminate. }
  pose proof (averages_are_numbers cluster) as Hnum.
  assert (Hunfold : best_tag_path np_exp sqrt_two_pi self cluster
                    = bind (py_max_by_value (averages cluster))
                        (fun best => Ok (fst best))) by reflexivity.
  destruct (averages cluster) as [|[k0 v0] rest] eqn:E; [congruence|].
  destruct (Hnum (k0, v0) (or_introl eq_refl)) as (m0 & Hm0).
  simpl in Hm0; subst v0.
  destruct (max_loop_spec rest k0 m0)
    as (k' & m' & Hfold & Hle & Hall & Hcase).
  assert (Hbest : best_tag_path np_exp sqrt_two_pi self cluster = Ok k').
  { rewrite Hunfold.
    exact (f_equal (fun b : string * float => Ok (fst b)) Hfold). }
  destruct Hcase as [[-> ->]|(i & Hnth & Hlt & Hbefore)].
  - exists 0, k0, m0. split; [reflexivity|]. split; [exact Hbest|].
    split; [|split; [intros j ? ? Hj; lia|exact Hnum]].
    intros k m [Heq|Hin]; [injection Heq as <- <-; apply Qle_refl|].
    eapply Hall; eauto.
  - exists (S i), k', m'. split; [exact Hnth|]. split; [exact Hbest|].
    split; [|split; [|exact Hnum]].
    + intros k m [Heq|Hin]; [injection Heq as <- <-; exact Hle|].
      eapply Hall; eauto.
    + intros [|j] k m Hj Hnj; simpl in Hnj.
      * injection Hnj as <- <-. exact Hlt.
      * eapply Hbefore; eauto; lia.
Qed.
End BestTagPath.

Lemma best_tag_path_first_max_witness :
  exists i best top,
    nth_error
      (probabilities_of_title_avg sample_exp sample_sqrt_two_pi
         list_extractor (descendants (Some sample_page) false)) i
    = Some (best, Some top)
    /\ best_tag_path sample_exp sample_sqrt_two_pi list_extractor
         (descendants (Some sample_page) false) = Ok best.
Proof.
  assert (Hne : flat_map linked_descendants
                  (descendants (Some sample_page) false) <> [])
    by (vm_compute; discriminate).
  destruct (best_tag_path_first_max sample_exp sample_sqrt_two_pi
              list_extractor _ Hne) as (i & best & top & H1 & H2 & _).
  exists i, best, top. split; [exact H1|exact H2].
Defined.

(** ** The fallback of the cluster choice *)

Section ChooseFallback.
Variable similarity : string -> string -> Q.

(** X17. When no cluster scores above the initial maximum -1, in particular
    when every cluster is empty, the choice is not made on the scores: the
    result is the lookup of the initial cluster id 0, a [KeyError] when
    there is no such id. *)
Theorem choose_best_cluster_fallback (clusters : dict Z (list Element)) :
  (forall cid c s, In (cid, c) clusters ->
                   cluster_score similarity c = Some s -> (s <= -1 # 1)%Q) ->
  _choose_best_cluster similarity clusters
  = dict_getitem Z.eqb clusters 0%Z.
Proof.
  intros Hlow.
  destruct (choose_loop_spec similarity clusters 0%Z (-1 # 1)%Q)
    as (arg & top & Hfold & _ & _ & Hcase).
  unfold _choose_best_cluster. rewrite Hfold.
  destruct Hcase as [[-> _]|(i & c & Hnth & Hsc & Hlt & _)];
    [reflexivity|].
  exfalso. apply (Qlt_not_le _ _ Hlt).
  eapply Hlow; [eapply nth_error_In; eauto|exact Hsc].
Qed.
End ChooseFallback.

Lemma choose_best_cluster_fallback_witness :
  _choose_best_cluster sample_similarity empty_clusters
  = dict_getitem Z.eqb empty_clusters 0%Z.
Proof.
  apply choose_best_cluster_fallback.
  intros cid c s Hin Hs. simpl in Hin.
  destruct Hin as [H|[H|[H|[]]]]; injection H as <- <-; discriminate.
Defined.

(** ** The whole extraction *)

Lemma linked_descendants_are_links (e d : Element) :
  In d (linked_descendants e) -> el_tag d = "a".
Proof.
  unfold linked_descendants. rewrite a_descendants_filter.
  unfold xpath_descendants. rewrite filter_In, String.eqb_eq. tauto.
Qed.

Section ProcessItems.
Variable similarity : string -> string -> Q.
Variable cluster_dict : dict string (list Element) -> dict Z (list Element).
Variable preprocess4list : option Element -> option Element.
Variable np_exp : Q -> Q.
Variable sqrt_two_pi : Q.
Variables group_min group_max : Element -> Q.
Variable self : ListExtractor.

(** X18. Whatever [process] returns comes from links: every returned record
    has a non-empty [href], which is the [href] attribute of an [a]
    element of one returned cluster, and its title is the text of that
    element. *)
Theorem process_items_from_links (element : option Element)
    (items : list Item) :
  process similarity cluster_dict preprocess4list np_exp sqrt_two_pi
    group_min group_max self element = Ok items ->
  exists cluster,
    In cluster
      (map snd (_build_clusters similarity cluster_dict group_min group_max
                  self (preprocess4list element)))
    /\ forall it,
         In it items ->
         href it <> EmptyString
         /\ exists e d,
              In e cluster /\ In d (linked_descendants e)
              /\ el_tag d = "a"
              /\ dict_get String.eqb (el_attrib d) "href" = Some (href it)
              /\ title it = element_text d.
Proof.
  unfold process, bind.
  destruct (_choose_best_cluster similarity
              (_build_clusters similarity cluster_dict group_min group_max
                 self (preprocess4list element))) as [best|err] eqn:Hbest;
    [|discriminate].
  unfold _extract_from_cluster, bind.
  destruct (best_tag_path np_exp sqrt_two_pi self best) as [path|err];
    [|discriminate].
  intros H; injection H as <-.
  exists best. split.
  - unfold _choose_best_cluster in Hbest.
    destruct (fold_left (choose_step similarity) _ _) as [arg top].
    unfold dict_getitem in Hbest.
    destruct (dict_get Z.eqb _ arg) as [c|] eqn:Hget; [|discriminate].
    injection Hbest as <-.
    revert Hget.
    induction (_build_clusters similarity cluster_dict group_min group_max
                 self (preprocess4list element)) as [|[k v] l IH]; simpl;
      [discriminate|].
    destruct (Z.eqb k arg); [intros H; injection H as ->; now left|].
    intros H; right; now apply IH.
  - intros it Hit. rewrite extract_with_path_emitted in Hit.
    apply in_flat_map in Hit as (d & Hd & Hit).
    apply in_flat_map in Hd as (e & He & Hd).
    apply (emitted_In np_exp sqrt_two_pi) in Hit
      as (_ & Hhref & Hget & Htitle).
    split; [exact Hhref|].
    exists e, d. split; [exact He|]. split; [exact Hd|].
    split; [exact (linked_descendants_are_links e d Hd)|].
    split; [exact Hget|exact Htitle].
Qed.
End ProcessItems.

Lemma process_items_from_links_witness :
  exists cluster e d,
    In cluster
      (map snd (_build_clusters sample_similarity sample_cluster_dict
                  sample_group_min sample_group_max list_extractor
                  (sample_preprocess (Some sample_page))))
    /\ In e cluster /\ In d (linked_descendants e)
    /\ el_tag d = "a"
    /\ dict_get String.eqb (el_attrib d) "href" = Some "/p/1"
    /\ element_text d = "Itemnumber1".
Proof.
  assert (H : process sample_similarity sample_cluster_dict sample_preprocess
                sample_exp sample_sqrt_two_pi sample_group_min
                sample_group_max list_extractor (Some sample_page)
              = Ok [mkItem "Itemnumber1" "/p/1"; mkItem "Itemnumber2" "/p/2";
                    mkItem "Itemnumber3" "/p/3"; mkItem "Itemnumber4" "/p/4";
                    mkItem "Itemnumber5" "/p/5"])
    by (vm_compute; reflexivity).
  destruct (process_items_from_links _ _ _ _ _ _ _ _ _ _ H)
    as (cluster & Hcluster & Hitems).
  destruct (Hitems (mkItem "Itemnumber1" "/p/1") (or_introl eq_refl))
    as (_ & e & d & He & Hd & Ha & Hhref & Htitle).
  exists cluster, e, d. simpl in Hhref, Htitle.
  split; [exact Hcluster|]. split; [exact He|]. split; [exact Hd|].
  split; [exact Ha|]. split; [exact Hhref|]. symmetry; exact Htitle.
Defined.

(** ** The body of the document *)

(** X19. [descendants_of_body] looks at the whole document: called on an
    element or on its parent it returns the same list, and that list is
    empty or starts with an element tagged [body] followed by the
    descendants of that element. *)
Theorem descendants_of_body_document (d p : Element) :
  parent (Some d) = Some p ->
  descendants_of_body (Some d) = descendants_of_body (Some p)
  /\ (descendants_of_body (Some d) = []
      \/ exists body,
           el_tag body = "body"
           /\ descendants_of_body (Some d)
              = body :: descendants (Some body) false).
Proof.
  intros Hp.
  assert (Hroot : root_of (node_of d) (el_ctx d)
                  = root_of (node_of p) (el_ctx p)).
  { unfold parent, getparent in Hp. simpl in Hp.
    destruct (el_ctx d) as [|pt pa ptx ptl before up after];
      [discriminate|].
    injection Hp as <-. reflexivity. }
  split.
  - unfold descendants_of_body, xpath_document. now rewrite Hroot.
  - unfold descendants_of_body.
    destruct (xpath_document "body" d) as [|body rest] eqn:E; [now left|].
    right. exists body. split; [|reflexivity].
    assert (Hin : In body (xpath_document "body" d))
      by (rewrite E; now left).
    unfold xpath_document in Hin. apply filter_In in Hin as [_ Hin].
    now apply String.eqb_eq.
Qed.

Lemma descendants_of_body_document_witness :
  descendants_of_body (Some sample_first_link)
  = descendants_of_body (Some sample_first_row).
Proof.
  apply descendants_of_body_document. vm_compute. reflexivity.
Defined.

(** ** Nested candidates *)

Lemma group_of_key {A : Type} (tree : dict string (list A)) (key : string)
    (x : A) :
  In x (group_of tree key) -> In key (dict_keys tree).
Proof.
  unfold group_of, dict_keys.
  induction tree as [|[k v] tree IH]; simpl; [tauto|].
  destruct (String.eqb_spec k key) as [->|_]; [now left|].
  intros H; right; now apply IH.
Qed.

Lemma prefix_length (a b : string) :
  String.prefix a b = true -> String.length a <= String.length b.
Proof.
  revert b; induction a as [|x a IH]; intros [|y b]; simpl;
    try discriminate; try lia.
  destruct (ascii_dec x y); [|discriminate].
  intros H; apply IH in H; lia.
Qed.

(** The selector of the parent of an element is a proper prefix of the
    selector of the parent of each of its descendants. *)
Lemma parent_selector_extends (e d pe : Element) :
  parent (Some e) = Some pe ->
  In d (descendants (Some e) false) ->
  String.prefix (parent_selector e) (parent_selector d) = true
  /\ parent_selector d <> parent_selector e.
Proof.
  intros Hpe Hd. unfold parent_selector. rewrite Hpe.
  destruct (descendants_parent e d Hd) as (p & Hp & Hcase). rewrite Hp.
  assert (He : String.prefix (selector (Some pe)) (selector (Some e)) = true
               /\ String.length (selector (Some pe))
                  < String.length (selector (Some e))).
  { rewrite (selector_step e), Hpe. split; [apply prefix_append|].
    rewrite str_length_append. simpl. lia. }
  destruct He as [Hpre Hlen].
  assert (Hp' : String.prefix (selector (Some e)) (selector (Some p)) = true).
  { destruct Hcase as [->|Hin]; [apply prefix_refl|].
    destruct (chain_extends selector) with (e := e) (d := p) as [H _];
      [|exact Hin|exact H].
    intros x q Hq. rewrite (selector_step x), Hq.
    eexists; split; [|reflexivity]. discriminate. }
  split; [eapply prefix_trans; eauto|].
  intros Heq. apply prefix_length in Hp'. rewrite Heq in Hp'. lia.
Qed.

Section NestedCandidates.
Variable similarity : string -> string -> Q.
Variables group_min group_max : Element -> Q.
Variable self : ListExtractor.

Local Abbreviation candidate :=
  (is_candidate similarity group_min group_max self).
Local Abbreviation tree_of :=
  (group_candidates similarity group_min group_max self).

(** X20. Nested repeats: when an element with a parent (whose selector is
    not empty) and one of its descendants both pass the candidate filter,
    the cut removes the group the element belongs to, so the coarser level
    does not reach the clustering. *)
Theorem nested_candidates_cut (element : option Element) (e d pe : Element)
    (g : list Element) :
  In e (descendants_of_body element) -> candidate e = true ->
  In d (descendants_of_body element) -> candidate d = true ->
  In d (descendants (Some e) false) ->
  parent (Some e) = Some pe ->
  parent_selector e <> EmptyString ->
  ~ In (parent_selector e, g) (cut_tree (tree_of element)).
Proof.
  intros He Hce Hd Hcd Hdesc Hpe Hnonempty Hin.
  destruct (parent_selector_extends e d pe Hpe Hdesc) as [Hpre Hne].
  assert (Hkey : forall x, In x (descendants_of_body element) ->
                           candidate x = true ->
                           In (parent_selector x) (dict_keys (tree_of element))).
  { intros x Hx Hcx. apply (group_of_key _ _ x). unfold group_candidates.
    apply (group_loop_members similarity group_min group_max self).
    right. auto. }
  assert (Hnd : NoDup (dict_keys (tree_of element))).
  { unfold group_candidates.
    rewrite (fold_left_filter candidate
               (fun t x => defaultdict_append t (parent_selector x) x)).
    apply (append_loop_invariant parent_selector (fun x : Element => x));
      constructor. }
  unfold cut_tree in Hin. rewrite cut_loop_dropped in Hin.
  apply (dict_del_all_In _ _ _ Hnd) in Hin as [_ Hkept]. apply Hkept.
  simpl.
  assert (Hwalk : forall x, In x (dict_keys (tree_of element)) ->
                            In x (rev (sorted (dict_keys (tree_of element))))).
  { intros x Hx. rewrite <- in_rev. now apply sorted_In. }
  apply (dropped_keys_complete _ _ None
           (reversed_sorted_descending _ Hnd)).
  - apply Hwalk. now apply Hkey.
  - destruct (parent_selector e); [congruence|reflexivity].
  - exists (parent_selector d). split; [apply Hwalk; now apply Hkey|].
    split; [exact Hne|exact Hpre].
Qed.
End NestedCandidates.

Lemma nested_candidates_cut_witness :
  ~ In (parent_selector nested_first_row,
        group_of (group_candidates sample_similarity sample_group_min
                    sample_group_max lenient_extractor (Some nested_page))
          (parent_selector nested_first_row))
      (cut_tree (group_candidates sample_similarity sample_group_min
                   sample_group_max lenient_extractor (Some nested_page))).
Proof.
  apply (nested_candidates_cut sample_similarity sample_group_min
           sample_group_max lenient_extractor (Some nested_page)
           nested_first_row nested_first_link nested_ul).
  - vm_compute. do 2 right. left. reflexivity.
  - vm_compute. reflexivity.
  - vm_compute. do 3 right. left. reflexivity.
  - vm_compute. reflexivity.
  - vm_compute. left. reflexivity.
  - vm_compute. reflexivity.
  - vm_compute. discriminate.
Defined.
